(** * toybox-cpp: the continuation chain, the register policies and the directives

    A shallow embedding of three of the repository's programs:
    - the continuation monad of the asynchronous chaining demo
      ([asyncApi], [Continuator], [AsyncApi], [Bind], [Loop], [Return], [LoopN]),
    - the register access policies [wo_t], [ro_t] and [rw_t],
    - the message directives ([destination], [source], [id], [operator<<]).

    A function of the chaining demo is a program in continuation-passing form
    over the effects it has; a small machine runs the threads such programs
    start and logs what they print, start and sleep.  A register policy is a
    function on 32-bit values, a directive a function on a store of
    messages. *)

From Stdlib Require Import ZArith String List Lia DecimalString DecimalN.
From stdpp Require Import base strings gmap.
Import ListNotations.
Local Open Scope string_scope.

(** ** The continuation chain *)

Module Chain.

(** A [std::thread::id]. *)
Definition thread_id := nat.

(** What one statement streams into [std::cout]. *)
Inductive item : Type :=
| Str (s : string)
| Tid (t : thread_id)
| Int (z : Z)
| Endl.

(** The class hierarchy under [Continuator<R, A>], one constructor per
    class.  [Bind<R, A, C>] keeps [C _ktor] by value and the function [_rest];
    its [andThen] has no [return] statement, so it is defined behaviour at
    [R = void] only, the one instance the program uses. *)
Inductive Continuator : Type -> Type -> Type :=
| AsyncApi : Continuator unit string
| Bind {A : Type} (_ktor : Continuator unit A) (_rest : A -> Continuator unit A)
  : Continuator unit A
| Loop (_s : string) : Continuator unit string
| Return {R A : Type} (_x : A) : Continuator R A
| LoopN (_s : string) (_n : Z) : Continuator unit string.

(** The body of a function, in continuation-passing form: the effects the
    program has ([std::cout], [std::this_thread::get_id], a detached
    [std::thread], [sleep_for]) and the virtual call [p->andThen(k)] through a
    [std::unique_ptr<Continuator<R, A>>], which the source only makes in
    return position. *)
Inductive Prog (R : Type) : Type :=
| Ret (r : R)
| Cout (line : list item) (next : Prog R)
| Get_id (next : thread_id -> Prog R)
| Thread (body : Prog unit) (next : Prog R)
| Sleep_for (secs : Z) (next : Prog R)
| Call {A : Type} (p : Continuator R A) (k : A -> Prog R).

Arguments Ret {R} r.
Arguments Cout {R} line next.
Arguments Get_id {R} next.
Arguments Thread {R} body next.
Arguments Sleep_for {R} secs next.
Arguments Call {R A} p k.

(** [void asyncApi(std::function<void(std::string)> handler)] *)
Definition asyncApi (handler : string -> Prog unit) : Prog unit :=
  Get_id (fun self =>
  Cout [Str "called async in thread: "; Tid self; Endl]
  (Thread
     (Cout [Str "Started async, sleeping 3secs"; Endl]
     (Sleep_for 3
     (handler "Data from async")))
  (Ret tt))).

(** [AsyncApi::andThen] *)
Definition AsyncApi_andThen (k : string -> Prog unit) : Prog unit :=
  asyncApi k.

(** [Bind<R, A, C>::andThen]: [_ktor.andThen] is a call on a member held by
    value, [rest(a)->andThen(k)] a call through the pointer [rest] returns. *)
Definition Bind_andThen {A : Type} (_ktor_andThen : (A -> Prog unit) -> Prog unit)
    (_rest : A -> Continuator unit A) (k : A -> Prog unit) : Prog unit :=
  let rest := _rest in
  let lambda := fun a : A => Call (rest a) k in
  _ktor_andThen lambda.

(** [andThen], dispatched on the class of the object. *)
Fixpoint andThen {R A : Type} (c : Continuator R A) : (A -> Prog R) -> Prog R :=
  match c in Continuator R A return (A -> Prog R) -> Prog R with
  | AsyncApi => AsyncApi_andThen
  | Bind _ktor _rest => Bind_andThen (andThen _ktor) _rest
  | Loop _s => fun k =>
      Cout [Str "Loop::andThen: "; Str _s; Endl]
      (Bind_andThen AsyncApi_andThen (fun k0 => Loop k0) k)
  | Return _x => fun k => k _x
  | LoopN _s _n => fun k =>
      Cout [Str "[LoopN::andThen] "; Str _s; Str " "; Int _n; Endl]
      (let n := _n in
       Bind_andThen AsyncApi_andThen
         (fun s => if (0 <? n)%Z then LoopN s (n - 1) else Return "Done!") k)
  end.

(** *** The machine that runs the threads *)

(** What the threads do that can be observed. *)
Inductive event : Type :=
| Printed (t : thread_id) (line : list item)
| Started (parent child : thread_id)
| Slept (t : thread_id) (secs : Z).

(** One instruction of the thread [self]: it is over with a result, or it
    goes on, having logged an event or started a thread. *)
Inductive action (R : Type) : Type :=
| Finished (r : R)
| Continue (ev : option event) (spawn : option (Prog unit)) (next : Prog R).

Arguments Finished {R} r.
Arguments Continue {R} ev spawn next.

Definition exec {R : Type} (self fresh : thread_id) (p : Prog R) : action R :=
  match p with
  | Ret r => Finished r
  | Cout line next => Continue (Some (Printed self line)) None next
  | Get_id next => Continue None None (next self)
  | Thread body next => Continue (Some (Started self fresh)) (Some body) next
  | Sleep_for secs next => Continue (Some (Slept self secs)) None next
  | Call p k => Continue None None (andThen p k)
  end.

(** The runnable threads in the order they were started, the next unused
    thread id, and the events so far, oldest first. *)
Record machine : Type := Machine {
  threads : list (thread_id * Prog unit);
  fresh : thread_id;
  trace : list event
}.

Definition log (tr : list event) (ev : option event) : list event :=
  match ev with
  | Some e => tr ++ [e]
  | None => tr
  end.

(** The detached threads share nothing and never wait for one another, so the
    machine runs the oldest thread until it ends; a new thread queues up. *)
Definition step (m : machine) : machine :=
  match threads m with
  | [] => m
  | (self, p) :: others =>
      match exec self (fresh m) p with
      | Finished _ => Machine others (fresh m) (trace m)
      | Continue ev None next =>
          Machine ((self, next) :: others) (fresh m) (log (trace m) ev)
      | Continue ev (Some body) next =>
          Machine ((self, next) :: others ++ [(fresh m, body)]) (S (fresh m))
            (log (trace m) ev)
      end
  end.

Fixpoint run (n : nat) (m : machine) : machine :=
  match n with
  | O => m
  | S n' => run n' (step m)
  end.

(** A program that starts as the only thread, [main]. *)
Definition boot (p : Prog unit) : machine := Machine [(O, p)] 1 [].

(** The asynchronous units of work in a trace: one thread per [asyncApi]. *)
Fixpoint async_units (tr : list event) : nat :=
  match tr with
  | [] => O
  | Started _ _ :: tr' => S (async_units tr')
  | _ :: tr' => async_units tr'
  end.

#[export] Instance item_eq_dec : EqDecision item.
Proof. solve_decision. Defined.

(** How often a line was printed. *)
Definition prints (line : list item) (e : event) : bool :=
  match e with
  | Printed _ l => bool_decide (l = line)
  | _ => false
  end.

Fixpoint count_lines (line : list item) (tr : list event) : nat :=
  match tr with
  | [] => O
  | e :: tr' => (if prints line e then 1 else 0) + count_lines line tr'
  end.

(** The events of one unit of asynchronous work: [asyncApi] prints, starts a
    thread and returns; the thread prints, sleeps and calls the handler. *)
Definition asyncApi_trace (t f : thread_id) : list event :=
  [Printed t [Str "called async in thread: "; Tid t; Endl];
   Started t f;
   Printed f [Str "Started async, sleeping 3secs"; Endl];
   Slept f 3].

(** The events of one activation of [LoopN] and of [Loop]: a line and one
    unit of asynchronous work. *)
Definition LoopN_trace (s : string) (n : Z) (t f : thread_id) : list event :=
  Printed t [Str "[LoopN::andThen] "; Str s; Str " "; Int n; Endl]
  :: asyncApi_trace t f.

Definition Loop_trace (s : string) (t f : thread_id) : list event :=
  Printed t [Str "Loop::andThen: "; Str s; Endl] :: asyncApi_trace t f.

(** The double quote character of the message the handler prints. *)
Definition dquote : string := String (Ascii.ascii_of_nat 34) EmptyString.

(** [myAsyncHandler::operator()] *)
Definition myAsyncHandler (s : string) : Prog unit :=
  Get_id (fun self =>
  Cout [Str ("called me back with: " ++ dquote); Str s;
        Str (dquote ++ " in thread: "); Tid self; Endl]
  (Ret tt)).

(** [int] is 32 bits wide; [x * y] on [int]. *)
Definition int_wrap (z : Z) : Z := ((z + 2 ^ 31) mod 2 ^ 32 - 2 ^ 31)%Z.
Definition int_mul (x y : Z) : Z := int_wrap (x * y).

(** A handler that prints its argument and returns. *)
Definition print_with {A : Type} (show : A -> list item) (a : A) : Prog unit :=
  Cout (show a) (Ret tt).

(** The chains built from a terminal step ([Return]), an API call
    ([AsyncApi]) and [Bind]. *)
Inductive chain : forall {A : Type}, Continuator unit A -> Prop :=
| chain_Return {A : Type} (x : A) : chain (Return x)
| chain_AsyncApi : chain AsyncApi
| chain_Bind {A : Type} (pre : Continuator unit A) (next : A -> Continuator unit A) :
    chain pre -> (forall a, chain (next a)) -> chain (Bind pre next).

(** Two programs that do the same up to what is called through a pointer:
    the calls may go to different objects when their [andThen] bodies do the
    same, and a call of [Loop::andThen] may pass any handler. *)
Inductive sim : forall {R : Type}, Prog R -> Prog R -> Prop :=
| sim_Ret {R : Type} (r : R) : sim (Ret r) (Ret r)
| sim_Cout {R : Type} (line : list item) (p q : Prog R) :
    sim p q -> sim (Cout line p) (Cout line q)
| sim_Get_id {R : Type} (p q : thread_id -> Prog R) :
    (forall t, sim (p t) (q t)) -> sim (Get_id p) (Get_id q)
| sim_Thread {R : Type} (b1 b2 : Prog unit) (p q : Prog R) :
    sim b1 b2 -> sim p q -> sim (Thread b1 p) (Thread b2 q)
| sim_Sleep_for {R : Type} (secs : Z) (p q : Prog R) :
    sim p q -> sim (Sleep_for secs p) (Sleep_for secs q)
| sim_Call {R A : Type} (c : Continuator R A) (k1 k2 : A -> Prog R) :
    (forall a, sim (k1 a) (k2 a)) -> sim (Call c k1) (Call c k2)
| sim_dispatch {R A B : Type} (c1 : Continuator R A) (c2 : Continuator R B)
    (k1 : A -> Prog R) (k2 : B -> Prog R) :
    sim (andThen c1 k1) (andThen c2 k2) -> sim (Call c1 k1) (Call c2 k2)
| sim_Loop (s : string) (k1 k2 : string -> Prog unit) :
    sim (Call (Loop s) k1) (Call (Loop s) k2).

(** A program that is behind another one by calls through a pointer it has
    yet to enter. *)
Inductive ahead : forall {R : Type}, Prog R -> Prog R -> Prop :=
| ahead_Ret {R : Type} (r : R) : ahead (Ret r) (Ret r)
| ahead_Cout {R : Type} (line : list item) (p q : Prog R) :
    ahead p q -> ahead (Cout line p) (Cout line q)
| ahead_Get_id {R : Type} (p q : thread_id -> Prog R) :
    (forall t, ahead (p t) (q t)) -> ahead (Get_id p) (Get_id q)
| ahead_Thread {R : Type} (b1 b2 : Prog unit) (p q : Prog R) :
    ahead b1 b2 -> ahead p q -> ahead (Thread b1 p) (Thread b2 q)
| ahead_Sleep_for {R : Type} (secs : Z) (p q : Prog R) :
    ahead p q -> ahead (Sleep_for secs p) (Sleep_for secs q)
| ahead_Call {R A : Type} (c : Continuator R A) (k1 k2 : A -> Prog R) :
    (forall a, ahead (k1 a) (k2 a)) -> ahead (Call c k1) (Call c k2)
| ahead_enter {R A : Type} (c : Continuator R A) (k : A -> Prog R) (q : Prog R) :
    ahead (andThen c k) q -> ahead (Call c k) q.

(** [p] enters [j] calls and is then [p'], all the while behind [q]. *)
Inductive catches_up {R : Type} (q : Prog R) : nat -> Prog R -> Prog R -> Prop :=
| catches_up_now (p : Prog R) : ahead p q -> catches_up q 0 p p
| catches_up_enter {A : Type} (c : Continuator R A) (k : A -> Prog R)
    (j : nat) (p' : Prog R) :
    ahead (Call c k) q -> catches_up q j (andThen c k) p' ->
    catches_up q (S j) (Call c k) p'.

(** Machines whose threads are related one by one. *)
Section Related.
Variable rel : forall R : Type, Prog R -> Prog R -> Prop.

Inductive action_rel {R : Type} : action R -> action R -> Prop :=
| action_rel_Finished (r : R) : action_rel (Finished r) (Finished r)
| action_rel_Continue (ev : option event) (p q : Prog R) :
    rel R p q -> action_rel (Continue ev None p) (Continue ev None q)
| action_rel_spawn (ev : option event) (b1 b2 : Prog unit) (p q : Prog R) :
    rel unit b1 b2 -> rel R p q ->
    action_rel (Continue ev (Some b1) p) (Continue ev (Some b2) q).

Definition thread_rel (x y : thread_id * Prog unit) : Prop :=
  fst x = fst y /\ rel unit (snd x) (snd y).

Definition machine_rel (m1 m2 : machine) : Prop :=
  Forall2 thread_rel (threads m1) (threads m2)
  /\ fresh m1 = fresh m2 /\ trace m1 = trace m2.

End Related.

(** What two machines can be told apart by. *)
Definition same_events (m1 m2 : machine) : Prop :=
  trace m1 = trace m2 /\ fresh m1 = fresh m2
  /\ map fst (threads m1) = map fst (threads m2).

(** A program that, whatever it does, keeps a thread that calls
    [Loop::andThen]. *)
Definition is_Loop {R A : Type} (c : Continuator R A) : Prop :=
  match c with
  | Loop _ => True
  | _ => False
  end.

Fixpoint live {R : Type} (p : Prog R) : Prop :=
  match p with
  | Ret _ => False
  | Cout _ next => live next
  | Get_id next => forall t, live (next t)
  | Thread body next => live body \/ live next
  | Sleep_for _ next => live next
  | Call c _ => is_Loop c
  end.

(** A line that [asyncApi] does not print, one that an activation of [LoopN]
    does not print, and one that an activation of [Loop] does not print. *)
Definition not_of_asyncApi (line : list item) : Prop :=
  forall t f : thread_id, count_lines line (asyncApi_trace t f) = 0.

Definition not_of_LoopN (line : list item) : Prop :=
  forall (s : string) (n : Z) (t f : thread_id),
    count_lines line (LoopN_trace s n t f) = 0.

Definition not_of_Loop (line : list item) : Prop :=
  forall (s : string) (t f : thread_id),
    count_lines line (Loop_trace s t f) = 0.

(** The chains that may also have bounded loops ([LoopN]) as steps. *)
Inductive bounded : forall {A : Type}, Continuator unit A -> Prop :=
| bounded_Return {A : Type} (x : A) : bounded (Return x)
| bounded_AsyncApi : bounded AsyncApi
| bounded_LoopN (s : string) (n : Z) : bounded (LoopN s n)
| bounded_Bind {A : Type} (pre : Continuator unit A) (next : A -> Continuator unit A) :
    bounded pre -> (forall a, bounded (next a)) -> bounded (Bind pre next).

(** The thread a chain delivers in: the caller's when the chain has done no
    asynchronous unit of work, else the last one it started. *)
Definition delivery_thread (t f : thread_id) (units : nat) : thread_id :=
  if Nat.eqb units 0 then t else f + units - 1.

(** A machine with a thread that keeps a [Loop] going. *)
Definition has_live (m : machine) : Prop :=
  Exists (fun x : thread_id * Prog unit => live (snd x)) (threads m).

End Chain.

(** ** The register access policies *)

Module Register.
Local Open Scope Z_scope.

(** [unsigned] is 32 bits wide (the test generator stops at [0xffffffff]). *)
Definition unsigned_bits : Z := 32.
Definition wrap (z : Z) : Z := z mod 2 ^ unsigned_bits.

(** [a << b], [a >> b] and [~a] on [unsigned]; C++ defines the shifts for
    [b] below the width only. *)
Definition shl (a b : Z) : Z := wrap (Z.shiftl a b).
Definition shr (a b : Z) : Z := Z.shiftr a b.
Definition compl (a : Z) : Z := wrap (Z.lnot a).

(** A policy reads [*reg] and gives the value read, or gives the new [*reg]. *)
Module wo_t.
Definition write (reg mask offset value : Z) : Z :=
  shl (Z.land value mask) offset.
End wo_t.

Module ro_t.
Definition read (reg mask offset : Z) : Z :=
  Z.land (shr reg offset) mask.
End ro_t.

Module rw_t.
Definition read : Z -> Z -> Z -> Z := ro_t.read.
Definition write (reg mask offset value : Z) : Z :=
  Z.lor (Z.land reg (compl (shl mask offset))) (shl (Z.land value mask) offset).
End rw_t.

(** A value of type [unsigned]. *)
Definition is_unsigned (z : Z) : Prop := 0 <= z < 2 ^ unsigned_bits.

(** [keyed_wo_t<key_mask, key_offset, key_value>] *)
Module keyed_wo_t.
Definition write (key_mask key_offset key_value : Z) (reg mask offset value : Z) : Z :=
  let tmp := shl (Z.land value mask) offset in
  let tmp := Z.land tmp (compl (shl key_mask key_offset)) in
  let tmp := Z.lor tmp (shl (Z.land key_value key_mask) key_offset) in
  tmp.
End keyed_wo_t.

(** [soft_ro_t<initialized_to>]: the register read is a local one. *)
Module soft_ro_t.
Definition read (initialized_to : Z) (reg mask offset : Z) : Z :=
  let soft_register := initialized_to in
  ro_t.read soft_register mask offset.
End soft_ro_t.

(** [reg_t<address, mask, offset, mutability_policy>], on a memory that gives
    the [unsigned] at every address; the policy is the [write] or the [read]
    it is used with. *)
Module reg_t.
Definition write (policy_write : Z -> Z -> Z -> Z -> Z) (address mask offset : Z)
    (value : Z) (mem : Z -> Z) : Z -> Z :=
  fun a => if Z.eq_dec a address
           then policy_write (mem address) mask offset value
           else mem a.
Definition read (policy_read : Z -> Z -> Z -> Z) (address mask offset : Z)
    (mem : Z -> Z) : Z :=
  policy_read (mem address) mask offset.
End reg_t.

Definition cr_base : Z := 0xfffe0000.
Definition mr_base : Z := 0xfffe0004.
Definition sr_base : Z := 0xfffe0008.
Definition reset_base : Z := 0xfffe0080.

(** The registers of [namespace hw]. *)
Module hw.
Module cr.
Definition enable_write : Z -> (Z -> Z) -> Z -> Z := reg_t.write wo_t.write cr_base 0x1 0.
Definition disable_write : Z -> (Z -> Z) -> Z -> Z := reg_t.write wo_t.write cr_base 0x1 1.
End cr.
Module mr.
Definition clockdiv_write : Z -> (Z -> Z) -> Z -> Z := reg_t.write rw_t.write mr_base 0xff 0.
Definition clockdiv_read : (Z -> Z) -> Z := reg_t.read rw_t.read mr_base 0xff 0.
Definition delay_write : Z -> (Z -> Z) -> Z -> Z := reg_t.write rw_t.write mr_base 0xf 8.
Definition delay_read : (Z -> Z) -> Z := reg_t.read rw_t.read mr_base 0xf 8.
End mr.
Module sr.
Definition enable_read : (Z -> Z) -> Z := reg_t.read ro_t.read sr_base 0x1 0.
End sr.
Module rst.
Definition reset_write : Z -> (Z -> Z) -> Z -> Z :=
  reg_t.write (keyed_wo_t.write 0xff 24 0xac) reset_base 0x1 0.
End rst.
End hw.

(** [ro_test_t<mask, offset>::run()]: the two lines it prints. *)
Module ro_test_t.
Definition run (mem : Z -> Z) (mask offset : Z) : list (list Chain.item) :=
  let on_read := reg_t.read (soft_ro_t.read (shl mask offset)) 0 mask offset mem in
  let off_read := reg_t.read (soft_ro_t.read (compl (shl mask offset))) 0 mask offset mem in
  [[Chain.Int on_read; Chain.Str " : "; Chain.Int mask; Chain.Endl];
   [Chain.Int off_read; Chain.Endl]].
End ro_test_t.

(** [num_shifts_t<mask>::value]; the recursion ends at [0xffffffff], here
    within [depth] instantiations of the template. *)
Fixpoint num_shifts_t (depth : nat) (mask : Z) : option Z :=
  if mask =? 0xffffffff then Some 0
  else match depth with
       | O => None
       | S depth' =>
           match num_shifts_t depth' (Z.lor (shl mask 1) 1) with
           | Some value => Some (1 + value)
           | None => None
           end
       end.

(** [generate_offsets_t<test, mask, offset>::run()], what the tests print. *)
Fixpoint generate_offsets_t {X : Type} (test : Z -> Z -> list X) (mask : Z)
    (offset : nat) : list X :=
  match offset with
  | O => test mask 0
  | S offset' =>
      (test mask (Z.of_nat offset) ++ generate_offsets_t test mask offset')%list
  end.

(** [generate_masks_t<test, mask>::run()] *)
Fixpoint generate_masks_t {X : Type} (depth : nat) (test : Z -> Z -> list X)
    (mask : Z) : option (list X) :=
  if mask =? 0xffffffff
  then match num_shifts_t depth 0xffffffff with
       | Some value => Some (generate_offsets_t test 0xffffffff (Z.to_nat value))
       | None => None
       end
  else match depth with
       | O => None
       | S depth' =>
           match num_shifts_t depth mask,
                 generate_masks_t depth' test (Z.lor (shl mask 1) 1) with
           | Some value, Some rest =>
               Some (generate_offsets_t test mask (Z.to_nat value) ++ rest)%list
           | _, _ => None
           end
       end.

(** [generate_tests_t<test>::run()] *)
Definition generate_tests_t {X : Type} (depth : nat) (test : Z -> Z -> list X)
  : option (list X) :=
  generate_masks_t depth test 0x1.

(** [main] of the host executable example. *)
Definition main (depth : nat) (mem : Z -> Z) : option (list (list Chain.item)) :=
  generate_tests_t depth (ro_test_t.run mem).

End Register.

(** ** The directives *)

Module Directives.

Record Message : Type := {
  destination : string;
  source : string;
  id : N
}.

(** [Message::Message()] *)
Definition Message_new : Message :=
  {| destination := "empty"; source := "empty"; id := 0%N |}.

(** The objects of the program by address; a [Message&] is an address. *)
Abbreviation ref := nat (only parsing).
Abbreviation store := (gmap nat Message) (only parsing).

(** An expression of type [Message&]: it may change objects and gives a
    reference. *)
Definition expr := store -> ref * store.

Definition lvalue (r : ref) : expr := fun st => (r, st).

(** The directive structs, each with its member [value], for an argument that
    is an object no directive assigns to, as the temporaries of [main]: the
    reference then gives the value the directive was made with.  The structs
    for any argument are in [by_reference] below. *)
Inductive destination_directive : Type := Destination_directive (value : string).
Inductive source_directive : Type := Source_directive (value : string).
Inductive id_directive : Type := Id_directive (value : N).

(** What the template [operator<<] asks of its [Directive]:
    [Input& operator()(Input& input) const]. *)
Class Directive (D : Type) : Type :=
  call : D -> ref -> store -> ref * store.

#[export] Instance destination_call : Directive destination_directive :=
  fun d input st =>
    let 'Destination_directive value := d in
    (input, alter (fun m => {| destination := value; source := source m; id := id m |})
              input st).

#[export] Instance source_call : Directive source_directive :=
  fun d input st =>
    let 'Source_directive value := d in
    (input, alter (fun m => {| destination := destination m; source := value; id := id m |})
              input st).

#[export] Instance id_call : Directive id_directive :=
  fun d input st =>
    let 'Id_directive value := d in
    (input, alter (fun m => {| destination := destination m; source := source m; id := value |})
              input st).

(** The generator functions [destination], [source] and [id]. *)
Module make.
Definition destination (value : string) : destination_directive :=
  Destination_directive value.
Definition source (value : string) : source_directive :=
  Source_directive value.
Definition id (value : N) : id_directive :=
  Id_directive value.
End make.

(** [Message& operator<<(Message& msg, const Directive& directive)] *)
Definition shift_left {D : Type} `{Directive D} (msg : expr) (directive : D) : expr :=
  fun st => let '(r, st') := msg st in call directive r st'.

Declare Scope directive_scope.
Delimit Scope directive_scope with directive.
Notation "msg << directive" := (shift_left msg directive)
  (at level 50, left associativity) : directive_scope.

(** *** The reference a directive holds *)

(** What the [const std::string&] and the [const uint64_t&] of a directive can
    refer to: a member of a message of the store, or an object elsewhere that
    no directive assigns to, as the temporaries of [main]. *)
Inductive string_ref : Type :=
| elsewhere (s : string)
| destination_of (m : ref)
| source_of (m : ref).

Inductive uint64_ref : Type :=
| elsewhere_id (n : N)
| id_of (m : ref).

(** The value a reference gives when it is read; none where the message it
    refers to is not in the store. *)
Definition read_string (st : store) (value : string_ref) : option string :=
  match value with
  | elsewhere s => Some s
  | destination_of m => destination <$> st !! m
  | source_of m => source <$> st !! m
  end.

Definition read_uint64 (st : store) (value : uint64_ref) : option N :=
  match value with
  | elsewhere_id n => Some n
  | id_of m => id <$> st !! m
  end.

(** The directive structs with [value] as the reference it is: [operator()]
    reads it when it runs, not when the directive is made, so a directive made
    from a member of a message sees what earlier directives of the expression
    assigned to that member.  Reading a reference to a message that is not in
    the store has no defined behaviour in the source; the store is then left
    as it is.  The generator functions pass the reference on. *)
Module by_reference.

Inductive destination_directive : Type := Destination_directive (value : string_ref).
Inductive source_directive : Type := Source_directive (value : string_ref).
Inductive id_directive : Type := Id_directive (value : uint64_ref).

#[global] Instance destination_call : Directive destination_directive :=
  fun d input st =>
    let 'Destination_directive value := d in
    match read_string st value with
    | Some s =>
        (input, alter (fun m => {| destination := s; source := source m; id := id m |})
                  input st)
    | None => (input, st)
    end.

#[global] Instance source_call : Directive source_directive :=
  fun d input st =>
    let 'Source_directive value := d in
    match read_string st value with
    | Some s =>
        (input, alter (fun m => {| destination := destination m; source := s; id := id m |})
                  input st)
    | None => (input, st)
    end.

#[global] Instance id_call : Directive id_directive :=
  fun d input st =>
    let 'Id_directive value := d in
    match read_uint64 st value with
    | Some n =>
        (input, alter (fun m => {| destination := destination m; source := source m; id := n |})
                  input st)
    | None => (input, st)
    end.

Module make.
Definition destination (value : string_ref) : destination_directive :=
  Destination_directive value.
Definition source (value : string_ref) : source_directive :=
  Source_directive value.
Definition id (value : uint64_ref) : id_directive :=
  Id_directive value.
End make.

End by_reference.

(** The message of [main] and a second one, from ["me"] to ["you"]. *)
Definition main_and_other : gmap nat Message :=
  {[0 := Message_new; 1 := {| destination := "you"; source := "me"; id := 47 |}]}.

End Directives.

(** ** The directives for two kinds of message *)

(** The second program of directives has [Message] and the directive structs
    as the first one, and besides them [OtherMessage], a directive for its
    [otherId] and [to_defaults]. *)
Module Directives2.
Import Directives.

Module OtherMessage.
Record t : Type := {
  destination : string;
  source : string;
  otherId : string
}.
End OtherMessage.

(** [OtherMessage::OtherMessage()] *)
Definition OtherMessage_new : OtherMessage.t :=
  {| OtherMessage.destination := "U"; OtherMessage.source := "V";
     OtherMessage.otherId := "W" |}.

(** What the member templates ask of their [Input]: a member [destination],
    a member [source], a member [id] that takes an integer. *)
Class has_destination (Input : Type) : Type :=
  with_destination : string -> Input -> Input.
Class has_source (Input : Type) : Type :=
  with_source : string -> Input -> Input.
Class has_id (Input : Type) : Type :=
  with_id : N -> Input -> Input.

#[export] Instance Message_destination : has_destination Message :=
  fun value m => {| destination := value; source := source m; id := id m |}.
#[export] Instance Message_source : has_source Message :=
  fun value m => {| destination := destination m; source := value; id := id m |}.
#[export] Instance Message_id : has_id Message :=
  fun value m => {| destination := destination m; source := source m; id := value |}.
#[export] Instance OtherMessage_destination : has_destination OtherMessage.t :=
  fun value m =>
    {| OtherMessage.destination := value; OtherMessage.source := OtherMessage.source m;
       OtherMessage.otherId := OtherMessage.otherId m |}.
#[export] Instance OtherMessage_source : has_source OtherMessage.t :=
  fun value m =>
    {| OtherMessage.destination := OtherMessage.destination m; OtherMessage.source := value;
       OtherMessage.otherId := OtherMessage.otherId m |}.

(** [std::ostringstream o; o << value; o.str()] for a [uint64_t]: its
    decimal numeral. *)
Definition ostringstream_str (value : N) : string :=
  NilEmpty.string_of_uint (N.to_uint value).

Inductive to_defaults_directive : Type := To_defaults_directive.

(** What [operator()] of a directive does to its [Input]; it gives back the
    reference it took. *)
Class Input_directive (D Input : Type) : Type :=
  apply_to : D -> Input -> Input.

#[export] Instance destination_apply {Input : Type} `{has_destination Input}
  : Input_directive destination_directive Input :=
  fun d input => let 'Destination_directive value := d in with_destination value input.

#[export] Instance source_apply {Input : Type} `{has_source Input}
  : Input_directive source_directive Input :=
  fun d input => let 'Source_directive value := d in with_source value input.

(** The two specializations of [id_directive::operator()]. *)
#[export] Instance id_apply_Message : Input_directive id_directive Message :=
  fun d input => let 'Id_directive value := d in with_id value input.

#[export] Instance id_apply_OtherMessage : Input_directive id_directive OtherMessage.t :=
  fun d input =>
    let 'Id_directive value := d in
    {| OtherMessage.destination := OtherMessage.destination input;
       OtherMessage.source := OtherMessage.source input;
       OtherMessage.otherId := ostringstream_str value |}.

#[export] Instance to_defaults_apply {Input : Type}
    `{has_source Input} `{has_destination Input} `{has_id Input}
  : Input_directive to_defaults_directive Input :=
  fun _ input =>
    let input := with_source "A" input in
    let input := with_destination "B" input in
    let input := with_id 11%N input in
    input.

(** The generator function [to_defaults]. *)
Definition to_defaults : to_defaults_directive := To_defaults_directive.

(** The two [operator<<], for [Message&] and for [OtherMessage&], on the
    store of the objects of the one type. *)
Definition shift_left {D Input : Type} `{Input_directive D Input}
    (msg : gmap nat Input -> nat * gmap nat Input) (directive : D)
  : gmap nat Input -> nat * gmap nat Input :=
  fun st => let '(r, st') := msg st in (r, alter (apply_to directive) r st').

Definition lvalue {Input : Type} (r : nat) : gmap nat Input -> nat * gmap nat Input :=
  fun st => (r, st).

Declare Scope directive2_scope.
Delimit Scope directive2_scope with directive2.
Notation "msg << directive" := (shift_left msg directive)
  (at level 50, left associativity) : directive2_scope.

End Directives2.

(** * Properties *)

(** ** The continuation chain *)

Module ChainFacts.
Import Chain.
Local Open Scope list_scope.

Lemma run_add (a b : nat) (m : machine) : run (a + b) m = run b (run a m).
Proof.
  revert m. induction a as [|a IH]; intros m; simpl; [reflexivity|apply IH].
Qed.

Lemma async_units_app (tr1 tr2 : list event) :
  async_units (tr1 ++ tr2) = async_units tr1 + async_units tr2.
Proof.
  induction tr1 as [|e tr1 IH]; simpl; [reflexivity|].
  destruct e; simpl; rewrite IH; reflexivity.
Qed.

Lemma asyncApi_run (handler : string -> Prog unit) (t f : thread_id) (tr : list event) :
  run 6 (Machine [(t, asyncApi handler)] f tr)
  = Machine [(f, handler "Data from async")] (S f) (tr ++ asyncApi_trace t f).
Proof.
  unfold asyncApi_trace. simpl. unfold step. simpl.
  rewrite <- !app_assoc. reflexivity.
Qed.

Lemma count_lines_app (line : list item) (tr1 tr2 : list event) :
  count_lines line (tr1 ++ tr2) = count_lines line tr1 + count_lines line tr2.
Proof.
  induction tr1 as [|e tr1 IH]; simpl; [reflexivity|].
  rewrite IH. lia.
Qed.

Lemma count_lines_own (line : list item) (t : thread_id) :
  count_lines line [Printed t line] = 1.
Proof.
  simpl. rewrite bool_decide_eq_true_2 by reflexivity. reflexivity.
Qed.

(** The run of a handler that prints a line and returns. *)
Lemma print_with_run {A : Type} (show : A -> list item) (a : A)
    (t f : thread_id) (tr : list event) :
  run 2 (Machine [(t, print_with show a)] f tr)
  = Machine [] f (tr ++ [Printed t (show a)]).
Proof.
  reflexivity.
Qed.

(** Driving a chain from an only thread [t]: after [steps] instructions some
    thread [t'] is the only one left and is about to run [k v]; until then the
    machine logged [tr'], and neither the number of instructions, nor the
    value, nor the events depend on [k]. *)
Lemma chain_delivers {A : Type} (c : Continuator unit A) :
  chain c ->
  exists (steps : nat) (v : A),
  forall t f : thread_id,
  exists (t' : thread_id) (tr' : list event),
    (forall line : list item, not_of_asyncApi line -> count_lines line tr' = 0)
    /\ forall (k : A -> Prog unit) (tr : list event),
         run steps (Machine [(t, andThen c k)] f tr)
         = Machine [(t', k v)] (f + async_units tr') (tr ++ tr').
Proof.
  induction 1 as [A x| |A pre next HS IHS Hnext IHnext].
  - exists 0, x. intros t f. exists t, []. split; [reflexivity|].
    intros k tr. simpl. rewrite Nat.add_0_r, app_nil_r. reflexivity.
  - exists 6, "Data from async". intros t f. exists f, (asyncApi_trace t f).
    split; [intros line Hline; apply Hline|].
    intros k tr. simpl andThen. unfold AsyncApi_andThen.
    rewrite asyncApi_run. simpl. rewrite Nat.add_1_r. reflexivity.
  - destruct IHS as (n1 & v1 & IHS).
    destruct (IHnext v1) as (n2 & v2 & IH2).
    exists (n1 + S n2), v2. intros t f.
    destruct (IHS t f) as (t1 & tr1 & C1 & E1).
    destruct (IH2 t1 (f + async_units tr1)) as (t2 & tr2 & C2 & E2).
    exists t2, (tr1 ++ tr2). split.
    + intros line Hline. rewrite count_lines_app, C1, C2 by exact Hline.
      reflexivity.
    + intros k tr. rewrite run_add. simpl andThen. unfold Bind_andThen.
      rewrite E1. simpl run. unfold step at 1. simpl.
      rewrite E2, async_units_app, Nat.add_assoc, app_assoc. reflexivity.
Qed.

(** One activation of [LoopN], up to the call through the pointer the lambda
    returned. *)
Lemma LoopN_run (s : string) (n : Z) (k : string -> Prog unit)
    (t f : thread_id) (tr : list event) :
  run 8 (Machine [(t, andThen (LoopN s n) k)] f tr)
  = Machine
      [(f, andThen (if (0 <? n)%Z then LoopN "Data from async" (n - 1)
                    else Return "Done!") k)]
      (S f)
      (tr ++ LoopN_trace s n t f).
Proof.
  unfold LoopN_trace.
  change 8 with (1 + (6 + 1)). rewrite !run_add.
  change (run 1 (Machine [(t, andThen (LoopN s n) k)] f tr))
    with (Machine
            [(t, asyncApi (fun a => Call (if (0 <? n)%Z then LoopN a (n - 1)
                                          else Return "Done!") k))]
            f (tr ++ [Printed t [Str "[LoopN::andThen] "; Str s; Str " "; Int n; Endl]])).
  rewrite asyncApi_run, <- app_assoc. reflexivity.
Qed.

Lemma LoopN_delivers (n : nat) :
  forall (s : string) (t f : thread_id),
  exists (tr' pre : list event) (parent : thread_id),
    async_units tr' = S n
    /\ tr' = pre ++ [Started parent (f + n);
                     Printed (f + n) [Str "Started async, sleeping 3secs"; Endl];
                     Slept (f + n) 3]
    /\ (forall line : list item, not_of_LoopN line -> count_lines line tr' = 0)
    /\ forall (k : string -> Prog unit) (tr : list event),
         run (8 * S n) (Machine [(t, andThen (LoopN s (Z.of_nat n)) k)] f tr)
         = Machine [(f + n, k "Done!")] (f + S n) (tr ++ tr').
Proof.
  induction n as [|n IH]; intros s t f.
  - exists (LoopN_trace s 0 t f),
      [Printed t [Str "[LoopN::andThen] "; Str s; Str " "; Int 0; Endl];
       Printed t [Str "called async in thread: "; Tid t; Endl]], t.
    rewrite Nat.add_0_r. split; [reflexivity|]. split; [reflexivity|].
    split; [intros line Hline; apply Hline|].
    intros k tr. rewrite LoopN_run. simpl. rewrite Nat.add_1_r. reflexivity.
  - destruct (IH "Data from async" f (S f)) as (tr' & pre & parent & Hu & Hs & Hc & E).
    exists (LoopN_trace s (Z.of_nat (S n)) t f ++ tr'),
      (LoopN_trace s (Z.of_nat (S n)) t f ++ pre), parent.
    replace (f + S n) with (S f + n) by lia.
    split; [|split; [|split]].
    + rewrite async_units_app, Hu. reflexivity.
    + rewrite Hs, <- app_assoc. reflexivity.
    + intros line Hline. rewrite count_lines_app, Hc, Hline by exact Hline.
      reflexivity.
    + intros k tr.
      replace (8 * S (S n)) with (8 + 8 * S n) by lia.
      rewrite run_add, LoopN_run.
      replace (0 <? Z.of_nat (S n))%Z with true
        by (symmetry; apply Z.ltb_lt; lia).
      replace (Z.of_nat (S n) - 1)%Z with (Z.of_nat n) by lia.
      rewrite E. f_equal; [lia|].
      rewrite <- app_assoc. reflexivity.
Qed.

(** *** Programs that do the same *)

Lemma sim_refl {R : Type} (p : Prog R) : sim p p.
Proof.
  induction p; constructor; auto.
Qed.

Lemma asyncApi_sim (h1 h2 : string -> Prog unit) :
  sim (h1 "Data from async") (h2 "Data from async") ->
  sim (asyncApi h1) (asyncApi h2).
Proof.
  intros H. unfold asyncApi. repeat constructor. exact H.
Qed.

Lemma andThen_sim {R A : Type} (c : Continuator R A) (k1 k2 : A -> Prog R) :
  (forall a, sim (k1 a) (k2 a)) -> sim (andThen c k1) (andThen c k2).
Proof.
  revert k1 k2.
  induction c as [|A ktor IHktor rest IHrest|s|R A x|s n]; intros k1 k2 H; simpl.
  - apply asyncApi_sim, H.
  - apply IHktor. intros a. apply sim_Call, H.
  - constructor. apply asyncApi_sim, sim_Call, H.
  - apply H.
  - constructor. apply asyncApi_sim, sim_Call, H.
Qed.

Lemma exec_sim {R : Type} (p q : Prog R) (t f : thread_id) :
  sim p q -> action_rel (@sim) (exec t f p) (exec t f q).
Proof.
  intros H. destruct H; simpl; try (constructor; auto; fail).
  - constructor. apply andThen_sim. assumption.
  - constructor. constructor. apply asyncApi_sim, sim_Loop.
Qed.

Section RelatedFacts.
Variable rel : forall R : Type, Prog R -> Prog R -> Prop.

Lemma step_aligned (t : thread_id) (p q : Prog unit)
    (o1 o2 : list (thread_id * Prog unit)) (f : thread_id) (tr : list event) :
  action_rel rel (exec t f p) (exec t f q) ->
  Forall2 (thread_rel rel) o1 o2 ->
  machine_rel rel (step (Machine ((t, p) :: o1) f tr))
    (step (Machine ((t, q) :: o2) f tr)).
Proof.
  intros Ha Ho. unfold step. simpl.
  destruct Ha as [r|ev p' q' Hn|ev b1 b2 p' q' Hb Hn].
  - repeat split; assumption.
  - repeat split; simpl; auto. constructor; [split; auto|assumption].
  - repeat split; simpl; auto. constructor; [split; auto|].
    apply Forall2_app; [assumption|]. constructor; [split; auto|constructor].
Qed.

Lemma machine_rel_same_events (m1 m2 : machine) :
  machine_rel rel m1 m2 -> same_events m1 m2.
Proof.
  intros (Hth & Hf & Htr). split; [exact Htr|]. split; [exact Hf|].
  induction Hth as [|x y l1 l2 [Hx _] _ IH]; simpl; [reflexivity|].
  rewrite Hx, IH. reflexivity.
Qed.

Hypothesis rel_refl : forall (R : Type) (p : Prog R), rel R p p.

Lemma threads_rel_refl (l : list (thread_id * Prog unit)) :
  Forall2 (thread_rel rel) l l.
Proof.
  induction l as [|x l IH]; constructor; [split; [reflexivity|apply rel_refl]|exact IH].
Qed.

End RelatedFacts.

Lemma step_sim (m1 m2 : machine) :
  machine_rel (@sim) m1 m2 -> machine_rel (@sim) (step m1) (step m2).
Proof.
  destruct m1 as [th1 f1 tr1], m2 as [th2 f2 tr2].
  intros (Hth & Hf & Htr). simpl in Hth, Hf, Htr. subst f2 tr2.
  destruct Hth as [|[t1 p] [t2 q] o1 o2 [Ht Hpq] Ho].
  - repeat split; constructor.
  - simpl in Ht, Hpq. subst t2. apply step_aligned; [|exact Ho].
    apply exec_sim, Hpq.
Qed.

Lemma run_sim (n : nat) (m1 m2 : machine) :
  machine_rel (@sim) m1 m2 -> machine_rel (@sim) (run n m1) (run n m2).
Proof.
  revert m1 m2. induction n as [|n IH]; intros m1 m2 H; simpl; [exact H|].
  apply IH, step_sim, H.
Qed.

(** *** Programs that do the same but for the calls to enter *)

Lemma ahead_refl {R : Type} (p : Prog R) : ahead p p.
Proof.
  induction p; constructor; auto.
Qed.

Lemma asyncApi_ahead (h1 h2 : string -> Prog unit) :
  ahead (h1 "Data from async") (h2 "Data from async") ->
  ahead (asyncApi h1) (asyncApi h2).
Proof.
  intros H. unfold asyncApi. repeat constructor. exact H.
Qed.

Lemma andThen_ahead {R A : Type} (c : Continuator R A) (k1 k2 : A -> Prog R) :
  (forall a, ahead (k1 a) (k2 a)) -> ahead (andThen c k1) (andThen c k2).
Proof.
  revert k1 k2.
  induction c as [|A ktor IHktor rest IHrest|s|R A x|s n]; intros k1 k2 H; simpl.
  - apply asyncApi_ahead, H.
  - apply IHktor. intros a. apply ahead_Call, H.
  - constructor. apply asyncApi_ahead, ahead_Call, H.
  - apply H.
  - constructor. apply asyncApi_ahead, ahead_Call, H.
Qed.

Lemma ahead_catches_up {R : Type} (p q : Prog R) :
  ahead p q ->
  forall t f : thread_id,
  exists (j : nat) (p' : Prog R),
    catches_up q j p p' /\ action_rel (@ahead) (exec t f p') (exec t f q).
Proof.
  intros H.
  induction H as [R r|R line p q H IH|R p q H IH|R b1 b2 p q Hb IHb H IH
                 |R secs p q H IH|R A c k1 k2 H IH|R A c k q H IH]; intros t f.
  - exists 0, (Ret r). split; repeat constructor.
  - exists 0, (Cout line p). split; repeat constructor; assumption.
  - exists 0, (Get_id p). split; repeat constructor; auto.
  - exists 0, (Thread b1 p). split; repeat constructor; assumption.
  - exists 0, (Sleep_for secs p). split; repeat constructor; assumption.
  - exists 0, (Call c k1). split.
    + constructor. apply ahead_Call, H.
    + simpl. constructor. apply andThen_ahead, H.
  - destruct (IH t f) as (j & p' & Hj & Ha).
    exists (S j), p'. split; [|exact Ha].
    apply catches_up_enter; [apply ahead_enter, H|exact Hj].
Qed.

Lemma run_catches_up (q p p' : Prog unit) (j : nat) :
  catches_up q j p p' ->
  forall (t : thread_id) (o : list (thread_id * Prog unit)) (f : thread_id)
    (tr : list event),
    run j (Machine ((t, p) :: o) f tr) = Machine ((t, p') :: o) f tr
    /\ forall i : nat, i <= j ->
       exists p_i : Prog unit,
         run i (Machine ((t, p) :: o) f tr) = Machine ((t, p_i) :: o) f tr
         /\ ahead p_i q.
Proof.
  induction 1 as [p Hp|A c k j p' Hc Hj IH]; intros t o f tr.
  - split; [reflexivity|]. intros i Hi. exists p.
    replace i with 0 by lia. split; [reflexivity|exact Hp].
  - destruct (IH t o f tr) as [E Hrun]. split; [exact E|].
    intros [|i] Hi.
    + exists (Call c k). split; [reflexivity|exact Hc].
    + apply Hrun. lia.
Qed.

(** The machine behind enters some calls, during which nothing can be told,
    and then does the instruction the other machine does. *)
Lemma ahead_lag (m1 m2 : machine) :
  machine_rel (@ahead) m1 m2 ->
  exists j : nat,
    (forall i : nat, i <= j -> machine_rel (@ahead) (run i m1) m2)
    /\ machine_rel (@ahead) (run (S j) m1) (step m2).
Proof.
  destruct m1 as [th1 f1 tr1], m2 as [th2 f2 tr2].
  intros (Hth & Hf & Htr). simpl in Hth, Hf, Htr. subst f2 tr2.
  destruct Hth as [|[t1 p] [t2 q] o1 o2 [Ht Hpq] Ho].
  - exists 0. split.
    + intros i Hi. replace i with 0 by lia. repeat split; constructor.
    + repeat split; constructor.
  - simpl in Ht, Hpq. subst t2.
    destruct (ahead_catches_up p q Hpq t1 f1) as (j & p' & Hj & Ha).
    destruct (run_catches_up q p p' j Hj t1 o1 f1 tr1) as [E Hrun].
    exists j. split.
    + intros i Hi. destruct (Hrun i Hi) as (p_i & Ei & Hp_i). rewrite Ei.
      repeat split; simpl. constructor; [split; auto|exact Ho].
    + replace (S j) with (j + 1) by lia. rewrite run_add, E.
      apply step_aligned; assumption.
Qed.

Lemma run_S_step (n : nat) (m : machine) : run (S n) m = step (run n m).
Proof.
  replace (S n) with (n + 1) by lia. rewrite run_add. reflexivity.
Qed.

Lemma ahead_forth (n : nat) :
  forall m1 m2 : machine,
  machine_rel (@ahead) m1 m2 ->
  exists m : nat, machine_rel (@ahead) (run m m1) (run n m2).
Proof.
  induction n as [|n IH]; intros m1 m2 H.
  - exists 0. exact H.
  - destruct (ahead_lag m1 m2 H) as (j & _ & Hstep).
    destruct (IH _ _ Hstep) as (m & Hm).
    exists (S j + m). rewrite run_add. exact Hm.
Qed.

Lemma ahead_back (m : nat) :
  forall m1 m2 : machine,
  machine_rel (@ahead) m1 m2 ->
  exists n : nat, machine_rel (@ahead) (run m m1) (run n m2).
Proof.
  induction m as [m IH] using lt_wf_ind. intros m1 m2 H.
  destruct (ahead_lag m1 m2 H) as (j & Hlag & Hstep).
  destruct (le_lt_dec m j) as [Hle|Hgt].
  - exists 0. apply Hlag, Hle.
  - destruct (IH (m - S j) ltac:(lia) _ _ Hstep) as (n & Hn).
    exists (S n). replace m with (S j + (m - S j)) by lia.
    rewrite run_add. exact Hn.
Qed.

(** *** The unbounded loop *)

Lemma Loop_live {R A : Type} (c : Continuator R A) (k : A -> Prog R) :
  is_Loop c -> live (andThen c k).
Proof.
  destruct c; simpl; try contradiction.
  intros _ t. left. exact I.
Qed.

Lemma live_exec {R : Type} (p : Prog R) (t f : thread_id) :
  live p ->
  match exec t f p with
  | Finished _ => False
  | Continue _ None next => live next
  | Continue _ (Some body) next => live body \/ live next
  end.
Proof.
  destruct p; simpl; auto. apply Loop_live.
Qed.

Lemma step_live (m : machine) : has_live m -> has_live (step m).
Proof.
  destruct m as [th f tr]. unfold has_live, step. simpl.
  intros H. destruct H as [[t p] others Hp|[t p] others Ho].
  - simpl in Hp. pose proof (live_exec p t f Hp) as Hx.
    destruct (exec t f p) as [r|ev [body|] next]; simpl.
    + contradiction.
    + destruct Hx as [Hb|Hn].
      * apply Exists_cons_tl, Exists_app. right. constructor. exact Hb.
      * constructor. exact Hn.
    + constructor. exact Hx.
  - destruct (exec t f p) as [r|ev [body|] next]; simpl.
    + exact Ho.
    + apply Exists_cons_tl, Exists_app. left. exact Ho.
    + apply Exists_cons_tl. exact Ho.
Qed.

Lemma run_live (n : nat) (m : machine) : has_live m -> has_live (run n m).
Proof.
  revert m. induction n as [|n IH]; intros m H; simpl; [exact H|].
  apply IH, step_live, H.
Qed.

(** One activation of [Loop]. *)
Lemma Loop_run (s : string) (k : string -> Prog unit)
    (t f : thread_id) (tr : list event) :
  run 8 (Machine [(t, andThen (Loop s) k)] f tr)
  = Machine [(f, andThen (Loop "Data from async") k)] (S f)
      (tr ++ Loop_trace s t f).
Proof.
  unfold Loop_trace.
  change 8 with (1 + (6 + 1)). rewrite !run_add.
  change (run 1 (Machine [(t, andThen (Loop s) k)] f tr))
    with (Machine [(t, asyncApi (fun a => Call (Loop a) k))] f
            (tr ++ [Printed t [Str "Loop::andThen: "; Str s; Endl]])).
  rewrite asyncApi_run, <- app_assoc. reflexivity.
Qed.

Lemma Loop_rounds (j : nat) :
  forall (s : string) (t f : thread_id),
  exists (t' : thread_id) (s' : string) (tr' : list event),
    async_units tr' = j
    /\ (forall line : list item, not_of_Loop line -> count_lines line tr' = 0)
    /\ forall (k : string -> Prog unit) (tr : list event),
         run (8 * j) (Machine [(t, andThen (Loop s) k)] f tr)
         = Machine [(t', andThen (Loop s') k)] (f + j) (tr ++ tr').
Proof.
  induction j as [|j IH]; intros s t f.
  - exists t, s, []. split; [reflexivity|]. split; [reflexivity|].
    intros k tr. simpl. rewrite Nat.add_0_r, app_nil_r. reflexivity.
  - destruct (IH "Data from async" f (S f)) as (t' & s' & tr' & Hu & Hc & E).
    exists t', s', (Loop_trace s t f ++ tr'). split; [|split].
    + rewrite async_units_app, Hu. reflexivity.
    + intros line Hline. rewrite count_lines_app, Hc, Hline by exact Hline.
      reflexivity.
    + intros k tr. replace (8 * S j) with (8 + 8 * j) by lia.
      rewrite run_add, Loop_run, E. f_equal; [lia|].
      rewrite <- app_assoc. reflexivity.
Qed.

(** A machine only adds to its trace. *)
Lemma step_trace_grows (m : machine) :
  exists ext : list event, trace (step m) = trace m ++ ext.
Proof.
  destruct m as [[|[t p] others] f tr]; unfold step; simpl.
  - exists []. rewrite app_nil_r. reflexivity.
  - destruct (exec t f p) as [r|[e|] [body|] next]; simpl;
      first [exists [e]; reflexivity | exists []; rewrite app_nil_r; reflexivity].
Qed.

Lemma run_trace_grows (n : nat) (m : machine) :
  exists ext : list event, trace (run n m) = trace m ++ ext.
Proof.
  revert m. induction n as [|n IH]; intros m; simpl.
  - exists []. rewrite app_nil_r. reflexivity.
  - destruct (IH (step m)) as (ext2 & E2).
    destruct (step_trace_grows m) as (ext1 & E1).
    exists (ext1 ++ ext2). rewrite E2, E1, app_assoc. reflexivity.
Qed.

Lemma count_lines_run_mono (line : list item) (n j : nat) (m : machine) :
  n <= j ->
  count_lines line (trace (run n m)) <= count_lines line (trace (run j m)).
Proof.
  intros Hnj. replace j with (n + (j - n)) by lia. rewrite run_add.
  destruct (run_trace_grows (j - n) (run n m)) as (ext & E).
  rewrite E, count_lines_app. lia.
Qed.

(** *** The programs of [main] *)

(** [callApi.andThen(myAsyncHandler())] *)
Example main_callApi :
  run 9 (boot (andThen AsyncApi myAsyncHandler))
  = Machine [] 2
      [Printed 0 [Str "called async in thread: "; Tid 0; Endl];
       Started 0 1;
       Printed 1 [Str "Started async, sleeping 3secs"; Endl];
       Slept 1 3;
       Printed 1 [Str ("called me back with: " ++ dquote); Str "Data from async";
                  Str (dquote ++ " in thread: "); Tid 1; Endl]].
Proof.
  vm_compute. reflexivity.
Qed.

(** [LoopN("Loop: ", 4).andThen(myAsyncHandler())]: five activations, each
    with its unit of asynchronous work, and then the handler. *)
Example main_LoopN :
  threads (run 43 (boot (andThen (LoopN "Loop: " 4) myAsyncHandler))) = []
  /\ async_units (trace (run 43 (boot (andThen (LoopN "Loop: " 4) myAsyncHandler)))) = 5
  /\ last (trace (run 43 (boot (andThen (LoopN "Loop: " 4) myAsyncHandler))))
     = Some (Printed 5 [Str ("called me back with: " ++ dquote); Str "Done!";
                        Str (dquote ++ " in thread: "); Tid 5; Endl]).
Proof.
  repeat split; vm_compute; reflexivity.
Qed.

(** A line no function of the chain prints. *)
Example a_line_of_its_own :
  not_of_asyncApi [Str "k"] /\ not_of_LoopN [Str "k"] /\ not_of_Loop [Str "k"].
Proof.
  repeat split.
Qed.

(** *** The properties of the chain *)

(** C1: the composition law.  Driving [Bind pre next] with [k] is driving
    [pre] with the continuation that takes the result [a] of [pre], builds
    [next a] and drives it with [k].  With the drive of [next a] as the call
    through the pointer [next] returns, which the machine has yet to enter, the
    two are the same program, and a machine runs the same on both.  With it as
    the body of [andThen] of [next a], already entered, the machine on the
    [Bind] is behind by the calls it has to enter, and nothing else: whatever
    one of the two machines has logged and started at some time, the other has
    at some time. *)
Theorem Bind_composition_law {A : Type} (pre : Continuator unit A)
    (next : A -> Continuator unit A) (k : A -> Prog unit) :
  andThen (Bind pre next) k = andThen pre (fun a => Call (next a) k)
  /\ (forall (t : thread_id) (others : list (thread_id * Prog unit))
        (f : thread_id) (tr : list event) (n : nat),
        run n (Machine ((t, andThen (Bind pre next) k) :: others) f tr)
        = run n (Machine ((t, andThen pre (fun a => Call (next a) k)) :: others) f tr))
  /\ (forall (t : thread_id) (others : list (thread_id * Prog unit))
        (f : thread_id) (tr : list event),
        (forall n : nat, exists m : nat,
           same_events
             (run m (Machine ((t, andThen (Bind pre next) k) :: others) f tr))
             (run n (Machine ((t, andThen pre (fun a => andThen (next a) k)) :: others) f tr)))
        /\ (forall m : nat, exists n : nat,
             same_events
               (run m (Machine ((t, andThen (Bind pre next) k) :: others) f tr))
               (run n (Machine ((t, andThen pre (fun a => andThen (next a) k)) :: others) f tr)))).
Proof.
  split; [reflexivity|]. split; [reflexivity|].
  intros t others f tr.
  assert (H : machine_rel (@ahead)
    (Machine ((t, andThen (Bind pre next) k) :: others) f tr)
    (Machine ((t, andThen pre (fun a => andThen (next a) k)) :: others) f tr)).
  { repeat split; simpl.
    constructor; [|apply threads_rel_refl; intros; apply ahead_refl].
    split; [reflexivity|]. simpl. unfold Bind_andThen.
    apply andThen_ahead. intros a. apply ahead_enter, ahead_refl. }
  split.
  - intros n. destruct (ahead_forth n _ _ H) as (m & Hm).
    exists m. apply (machine_rel_same_events (@ahead)), Hm.
  - intros m. destruct (ahead_back m _ _ H) as (n & Hn).
    exists n. apply (machine_rel_same_events (@ahead)), Hn.
Qed.

(** C4: [Return v] driven with [k] is the program [k v] and nothing else, so
    it has the effects and the result of this one call of [k]; driven through
    a pointer by the thread [t], the next instruction of [t] is the first of
    [k v], no event is logged and no thread is started.  With a handler that
    prints its argument and returns, the thread [t] prints the line of [v],
    once, and ends. *)
Theorem Return_andThen_calls_k {R A : Type} (v : A) (k : A -> Prog R) :
  andThen (Return v) k = k v
  /\ (forall t f : thread_id, exec t f (andThen (Return v) k) = exec t f (k v))
  /\ (forall (h : A -> Prog unit) (t : thread_id)
        (others : list (thread_id * Prog unit)) (f : thread_id) (tr : list event),
        step (Machine ((t, Call (Return v) h) :: others) f tr)
        = Machine ((t, h v) :: others) f tr)
  /\ (forall (show : A -> list item) (t : thread_id)
        (others : list (thread_id * Prog unit)) (f : thread_id) (tr : list event),
        run 2 (Machine ((t, andThen (Return v) (print_with show)) :: others) f tr)
        = Machine others f (tr ++ [Printed t (show v)])).
Proof.
  split; [reflexivity|]. split; [reflexivity|]. split; intros; reflexivity.
Qed.

(** C7: [Bind (Return 5) (fun x => Return (x * 2))] driven with [k]: the
    thread that drives it goes on with [k 10] after the one call through the
    pointer, and nothing was logged or started until then.  With a handler that
    prints its argument and returns, the thread prints the line of [10], once,
    and ends. *)
Theorem Bind_Return_scenario (k : Z -> Prog unit) (t : thread_id)
    (others : list (thread_id * Prog unit)) (f : thread_id) (tr : list event) :
  run 1 (Machine
           ((t, andThen (Bind (Return 5%Z) (fun x => Return (int_mul x 2))) k) :: others)
           f tr)
  = Machine ((t, k 10%Z) :: others) f tr
  /\ (forall show : Z -> list item,
        run 3 (Machine
                 ((t, andThen (Bind (Return 5%Z) (fun x => Return (int_mul x 2)))
                        (print_with show)) :: others)
                 f tr)
        = Machine others f (tr ++ [Printed t (show 10%Z)])).
Proof.
  split; intros; reflexivity.
Qed.

(** C8: [AsyncApi] driven with [k] by the thread [t].  After three
    instructions [t] has returned from [andThen]: it printed a line and
    started the thread [f], which has not run yet, and [k] is in the body of
    [f] only.  The thread [f], which is not [t], prints, sleeps and then
    calls [k] with the data. *)
Theorem AsyncApi_andThen_returns_first (k : string -> Prog unit) (t f : thread_id)
    (others : list (thread_id * Prog unit)) (tr : list event) :
  t < f ->
  run 3 (Machine ((t, andThen AsyncApi k) :: others) f tr)
  = Machine
      ((t, Ret tt) :: others ++
       [(f, Cout [Str "Started async, sleeping 3secs"; Endl]
              (Sleep_for 3 (k "Data from async")))])
      (S f)
      (tr ++ [Printed t [Str "called async in thread: "; Tid t; Endl]; Started t f])
  /\ run 6 (Machine [(t, andThen AsyncApi k)] f tr)
     = Machine [(f, k "Data from async")] (S f)
         (tr ++ [Printed t [Str "called async in thread: "; Tid t; Endl];
                 Started t f;
                 Printed f [Str "Started async, sleeping 3secs"; Endl];
                 Slept f 3])
  /\ f <> t.
Proof.
  intros Htf. split; [|split].
  - simpl. unfold step. simpl. rewrite <- app_assoc. reflexivity.
  - apply asyncApi_run.
  - lia.
Qed.

Lemma AsyncApi_andThen_returns_first_witness :
  run 3 (boot (andThen AsyncApi myAsyncHandler))
  = Machine
      [(0, Ret tt);
       (1, Cout [Str "Started async, sleeping 3secs"; Endl]
             (Sleep_for 3 (myAsyncHandler "Data from async")))]
      2
      [Printed 0 [Str "called async in thread: "; Tid 0; Endl]; Started 0 1]
  /\ run 6 (boot (andThen AsyncApi myAsyncHandler))
     = Machine [(1, myAsyncHandler "Data from async")] 2
         [Printed 0 [Str "called async in thread: "; Tid 0; Endl];
          Started 0 1;
          Printed 1 [Str "Started async, sleeping 3secs"; Endl];
          Slept 1 3]
  /\ 1 <> 0.
Proof.
  apply (AsyncApi_andThen_returns_first myAsyncHandler 0 1 [] []). lia.
Defined.

(** C3: a chain built from [Return], [AsyncApi] and [Bind], driven with a
    final continuation [k] by an only thread.  There are a number of
    instructions and a value [v], the same for every [k], after which the only
    thread left is about to run [k v] and nothing else: [k] has not run before
    (the events [tr'] logged until then are the same for every [k]), it is
    entered now, and no other thread is left to enter it again.  Counted with a
    handler that prints a line of its own and returns: the whole run ends, and
    it has this line once more than the trace it started from.  A step of the
    chain is a chain driven with a continuation of its own, so the same holds
    of every step. *)
Theorem chain_invokes_continuation_once {A : Type} (c : Continuator unit A) :
  chain c ->
  exists (steps : nat) (v : A),
  forall t f : thread_id,
  exists (t' : thread_id) (tr' : list event),
    (forall (k : A -> Prog unit) (tr : list event),
       run steps (Machine [(t, andThen c k)] f tr)
       = Machine [(t', k v)] (f + async_units tr') (tr ++ tr'))
    /\ (forall (line : list item) (tr : list event),
         not_of_asyncApi line ->
         threads (run (steps + 2)
                    (Machine [(t, andThen c (print_with (fun _ => line)))] f tr)) = []
         /\ count_lines line
              (trace (run (steps + 2)
                        (Machine [(t, andThen c (print_with (fun _ => line)))] f tr)))
            = count_lines line tr + 1).
Proof.
  intros Hc. destruct (chain_delivers c Hc) as (steps & v & H).
  exists steps, v. intros t f. destruct (H t f) as (t' & tr' & C & E).
  exists t', tr'. split; [exact E|].
  intros line tr Hline. rewrite run_add, E, print_with_run. simpl.
  split; [reflexivity|].
  rewrite !count_lines_app, count_lines_own, (C line Hline). lia.
Qed.

Lemma chain_invokes_continuation_once_witness :
  exists (steps : nat) (v : string),
  forall t f : thread_id,
  exists (t' : thread_id) (tr' : list event),
    (forall (k : string -> Prog unit) (tr : list event),
       run steps
         (Machine [(t, andThen (Bind AsyncApi (fun s => Bind AsyncApi (fun _ => Return s))) k)]
            f tr)
       = Machine [(t', k v)] (f + async_units tr') (tr ++ tr'))
    /\ (forall (line : list item) (tr : list event),
         not_of_asyncApi line ->
         threads (run (steps + 2)
                    (Machine
                       [(t, andThen (Bind AsyncApi (fun s => Bind AsyncApi (fun _ => Return s)))
                              (print_with (fun _ => line)))]
                       f tr)) = []
         /\ count_lines line
              (trace (run (steps + 2)
                        (Machine
                           [(t, andThen (Bind AsyncApi (fun s => Bind AsyncApi (fun _ => Return s)))
                                  (print_with (fun _ => line)))]
                           f tr)))
            = count_lines line tr + 1).
Proof.
  apply (chain_invokes_continuation_once
           (Bind AsyncApi (fun s => Bind AsyncApi (fun _ => Return s)))).
  repeat constructor.
Defined.

(** A chain of two API calls with a handler that prints [k]: the line is
    there once. *)
Example two_calls_one_line :
  run 16 (boot (andThen (Bind AsyncApi (fun s => Bind AsyncApi (fun _ => Return s)))
                  (print_with (fun s => [Str "k"; Str s]))))
  = Machine [] 3
      (asyncApi_trace 0 1 ++ asyncApi_trace 1 2
       ++ [Printed 2 [Str "k"; Str "Data from async"]]).
Proof.
  vm_compute. reflexivity.
Qed.

(** C2, as the code has it: [LoopN s n] with [0 <= n], driven with [k] by an
    only thread [t] when [f] is the next thread to start, does exactly [n + 1]
    asynchronous units of work and then goes on with [k "Done!"] in thread
    [f + n]: the thread the last of these units started, whose start, line and
    sleep end the events [tr'] logged until then, and which is not the caller
    [t] where the threads that exist are below [f].  The events [tr'] are the
    same for every [k], so [k] runs once and not before.  Counted with a
    handler that prints a line of its own and returns: the whole run ends, and
    it has this line once more than the trace it started from. *)
Theorem LoopN_delivers_after_units (s : string) (n : Z) (t f : thread_id) :
  (0 <= n)%Z ->
  exists (tr' pre : list event) (parent : thread_id),
    async_units tr' = Z.to_nat (n + 1)
    /\ tr' = pre ++ [Started parent (f + Z.to_nat n);
                     Printed (f + Z.to_nat n) [Str "Started async, sleeping 3secs"; Endl];
                     Slept (f + Z.to_nat n) 3]
    /\ (t < f -> f + Z.to_nat n <> t)
    /\ (forall (k : string -> Prog unit) (tr : list event),
         run (8 * Z.to_nat (n + 1)) (Machine [(t, andThen (LoopN s n) k)] f tr)
         = Machine [(f + Z.to_nat n, k "Done!")] (f + Z.to_nat (n + 1)) (tr ++ tr'))
    /\ (forall (line : list item) (tr : list event),
         not_of_LoopN line ->
         threads (run (8 * Z.to_nat (n + 1) + 2)
                    (Machine [(t, andThen (LoopN s n) (print_with (fun _ => line)))]
                       f tr))
         = []
         /\ count_lines line
              (trace (run (8 * Z.to_nat (n + 1) + 2)
                        (Machine [(t, andThen (LoopN s n) (print_with (fun _ => line)))]
                           f tr)))
            = count_lines line tr + 1).
Proof.
  intros Hn. replace (Z.to_nat (n + 1)) with (S (Z.to_nat n)) by lia.
  destruct (LoopN_delivers (Z.to_nat n) s t f)
    as (tr' & pre & parent & Hu & Hs & C & E).
  rewrite Z2Nat.id in E by exact Hn.
  exists tr', pre, parent.
  split; [exact Hu|]. split; [exact Hs|]. split; [lia|]. split; [exact E|].
  intros line tr Hline. rewrite run_add, E, print_with_run. simpl.
  split; [reflexivity|].
  rewrite !count_lines_app, count_lines_own, (C line Hline). lia.
Qed.

Lemma LoopN_delivers_after_units_witness :
  exists (tr' pre : list event) (parent : thread_id),
    async_units tr' = Z.to_nat (3 + 1)
    /\ tr' = pre ++ [Started parent (1 + Z.to_nat 3);
                     Printed (1 + Z.to_nat 3) [Str "Started async, sleeping 3secs"; Endl];
                     Slept (1 + Z.to_nat 3) 3]
    /\ (0 < 1 -> 1 + Z.to_nat 3 <> 0)
    /\ (forall (k : string -> Prog unit) (tr : list event),
         run (8 * Z.to_nat (3 + 1)) (Machine [(0, andThen (LoopN "Loop: " 3) k)] 1 tr)
         = Machine [(1 + Z.to_nat 3, k "Done!")] (1 + Z.to_nat (3 + 1)) (tr ++ tr'))
    /\ (forall (line : list item) (tr : list event),
         not_of_LoopN line ->
         threads (run (8 * Z.to_nat (3 + 1) + 2)
                    (Machine [(0, andThen (LoopN "Loop: " 3) (print_with (fun _ => line)))]
                       1 tr))
         = []
         /\ count_lines line
              (trace (run (8 * Z.to_nat (3 + 1) + 2)
                        (Machine [(0, andThen (LoopN "Loop: " 3) (print_with (fun _ => line)))]
                           1 tr)))
            = count_lines line tr + 1).
Proof.
  apply (LoopN_delivers_after_units "Loop: " 3 0 1). lia.
Defined.

(** C2 does not hold as stated: [LoopN "Loop: " 0] driven with the handler of
    [main] does one asynchronous unit of work (it starts thread 1, which
    sleeps) before the handler runs, in thread 1 and not in the caller. *)
Lemma LoopN_zero_does_one_unit :
  run 11 (boot (andThen (LoopN "Loop: " 0) myAsyncHandler))
  = Machine [] 2
      [Printed 0 [Str "[LoopN::andThen] "; Str "Loop: "; Str " "; Int 0; Endl];
       Printed 0 [Str "called async in thread: "; Tid 0; Endl];
       Started 0 1;
       Printed 1 [Str "Started async, sleeping 3secs"; Endl];
       Slept 1 3;
       Printed 1 [Str ("called me back with: " ++ dquote); Str "Done!";
                  Str (dquote ++ " in thread: "); Tid 1; Endl]]
  /\ run 4 (boot (andThen (LoopN "Loop: " 0) myAsyncHandler))
     = Machine
         [(0, Ret tt);
          (1, Cout [Str "Started async, sleeping 3secs"; Endl]
                (Sleep_for 3
                   (Call (Return "Done!") myAsyncHandler)))]
         2
         [Printed 0 [Str "[LoopN::andThen] "; Str "Loop: "; Str " "; Int 0; Endl];
          Printed 0 [Str "called async in thread: "; Tid 0; Endl];
          Started 0 1]
  /\ async_units (trace (run 8 (boot (andThen (LoopN "Loop: " 0) myAsyncHandler)))) = 1.
Proof.
  split; [|split]; vm_compute; reflexivity.
Qed.

(** C5: [Bind] is associative.  A machine that drives
    [Bind (Bind pre f) g] and one that drives [Bind pre (fun a => Bind (f a) g)]
    with the same [k], from the same state, have after any number of
    instructions logged the same events, started the same threads and kept the
    same threads running.  This holds for every [k], also one that logs its
    argument, so [k] gets the same values in both. *)
Theorem Bind_associative {A : Type} (pre : Continuator unit A)
    (f g : A -> Continuator unit A) (k : A -> Prog unit)
    (t : thread_id) (others : list (thread_id * Prog unit))
    (fr : thread_id) (tr : list event) (n : nat) :
  same_events
    (run n (Machine ((t, andThen (Bind (Bind pre f) g) k) :: others) fr tr))
    (run n (Machine ((t, andThen (Bind pre (fun a => Bind (f a) g)) k) :: others) fr tr)).
Proof.
  apply (machine_rel_same_events (@sim)), run_sim.
  repeat split; simpl.
  constructor; [|apply threads_rel_refl; intros; apply sim_refl].
  split; [reflexivity|]. simpl.
  unfold Bind_andThen. apply andThen_sim. intros a.
  apply sim_dispatch. simpl. apply sim_refl.
Qed.

(** C6: [Loop s] driven with [k].  After any number of instructions the
    machine still has a thread to run, and the events it has logged are the
    same whatever [k] is: [k] has not run.  Counted with a handler that prints
    a line of its own: the trace never has more of this line than it started
    with.  After every eighth instruction one more asynchronous unit of work
    is done, and the only thread is about to drive a [Loop] with [k] again. *)
Theorem Loop_never_delivers (s : string) (k : string -> Prog unit)
    (t f : thread_id) (tr : list event) (n : nat) :
  0 < length (threads (run n (Machine [(t, andThen (Loop s) k)] f tr)))
  /\ (forall k' : string -> Prog unit,
        trace (run n (Machine [(t, andThen (Loop s) k')] f tr))
        = trace (run n (Machine [(t, andThen (Loop s) k)] f tr)))
  /\ (forall line : list item,
        not_of_Loop line ->
        count_lines line
          (trace (run n (Machine [(t, andThen (Loop s) (print_with (fun _ => line)))] f tr)))
        = count_lines line tr)
  /\ (exists (t' : thread_id) (s' : string) (tr' : list event),
        async_units tr' = n /\
        forall k' : string -> Prog unit,
          run (8 * n) (Machine [(t, andThen (Loop s) k')] f tr)
          = Machine [(t', andThen (Loop s') k')] (f + n) (tr ++ tr')).
Proof.
  destruct (Loop_rounds n s t f) as (t' & s' & tr' & Hu & Hc & E).
  split; [|split; [|split]].
  - assert (H : has_live (run n (Machine [(t, andThen (Loop s) k)] f tr))).
    { apply run_live. constructor. apply Loop_live. exact I. }
    unfold has_live in H. destruct H; simpl; lia.
  - intros k'.
    assert (H : machine_rel (@sim) (run n (Machine [(t, andThen (Loop s) k')] f tr))
                  (run n (Machine [(t, andThen (Loop s) k)] f tr))).
    { apply run_sim. repeat split; simpl. constructor; [|constructor].
      split; [reflexivity|]. simpl. unfold Bind_andThen.
      constructor. apply asyncApi_sim, sim_Loop. }
    apply H.
  - intros line Hline.
    pose proof (count_lines_run_mono line 0 n
      (Machine [(t, andThen (Loop s) (print_with (fun _ => line)))] f tr)
      ltac:(lia)) as Hlo.
    pose proof (count_lines_run_mono line n (8 * n)
      (Machine [(t, andThen (Loop s) (print_with (fun _ => line)))] f tr)
      ltac:(lia)) as Hhi.
    rewrite E in Hhi. cbn [run trace] in Hlo, Hhi.
    rewrite count_lines_app, (Hc line Hline) in Hhi. lia.
  - exists t', s', tr'. split; [exact Hu|]. intros k'. apply E.
Qed.

(** *** More on the chain *)

(** An activation of [LoopN] with a bound that is not positive. *)
Lemma LoopN_run_last (s : string) (n : Z) (k : string -> Prog unit)
    (t f : thread_id) (tr : list event) :
  (n <= 0)%Z ->
  run 8 (Machine [(t, andThen (LoopN s n) k)] f tr)
  = Machine [(f, k "Done!")] (S f) (tr ++ LoopN_trace s n t f).
Proof.
  intros Hn. rewrite LoopN_run.
  replace (0 <? n)%Z with false by (symmetry; apply Z.ltb_ge; exact Hn).
  reflexivity.
Qed.

Lemma LoopN_delivers_in (j : nat) :
  forall (s : string) (t f : thread_id),
  exists tr' : list event,
    async_units tr' = S j
    /\ forall (k : string -> Prog unit) (tr : list event),
         run (8 * S j) (Machine [(t, andThen (LoopN s (Z.of_nat j)) k)] f tr)
         = Machine [(f + j, k "Done!")] (f + S j) (tr ++ tr').
Proof.
  induction j as [|j IH]; intros s t f.
  - exists (LoopN_trace s 0 t f). split; [reflexivity|].
    intros k tr. rewrite (LoopN_run_last s 0) by lia.
    rewrite Nat.add_0_r, Nat.add_1_r. reflexivity.
  - destruct (IH "Data from async" f (S f)) as (tr' & Hu & E).
    exists (LoopN_trace s (Z.of_nat (S j)) t f ++ tr'). split.
    + rewrite async_units_app, Hu. reflexivity.
    + intros k tr.
      replace (8 * S (S j)) with (8 + 8 * S j) by lia.
      rewrite run_add, LoopN_run.
      replace (0 <? Z.of_nat (S j))%Z with true
        by (symmetry; apply Z.ltb_lt; lia).
      replace (Z.of_nat (S j) - 1)%Z with (Z.of_nat j) by lia.
      rewrite E. f_equal; [f_equal; f_equal; lia|lia|].
      rewrite <- app_assoc. reflexivity.
Qed.

(** [LoopN] with any bound, also a negative one. *)
Lemma LoopN_delivers_any (s : string) (n : Z) (t f : thread_id) :
  exists tr' : list event,
    async_units tr' = S (Z.to_nat n)
    /\ forall (k : string -> Prog unit) (tr : list event),
         run (8 * S (Z.to_nat n)) (Machine [(t, andThen (LoopN s n) k)] f tr)
         = Machine [(f + Z.to_nat n, k "Done!")] (f + S (Z.to_nat n)) (tr ++ tr').
Proof.
  destruct (Z.le_gt_cases n 0) as [Hn|Hn].
  - exists (LoopN_trace s n t f). replace (Z.to_nat n) with 0 by lia.
    split; [reflexivity|]. intros k tr.
    rewrite (LoopN_run_last s n) by exact Hn.
    rewrite Nat.add_0_r, Nat.add_1_r. reflexivity.
  - destruct (LoopN_delivers_in (Z.to_nat n) s t f) as (tr' & Hu & E).
    rewrite Z2Nat.id in E by lia. exists tr'. split; assumption.
Qed.

Lemma delivery_thread_next (t f u1 u2 : nat) :
  delivery_thread (delivery_thread t f u1) (f + u1) u2
  = delivery_thread t f (u1 + u2).
Proof.
  unfold delivery_thread.
  destruct u1 as [|u1], u2 as [|u2]; simpl; lia.
Qed.

Lemma bounded_delivers {A : Type} (c : Continuator unit A) :
  bounded c ->
  exists (steps : nat) (v : A) (units : nat),
  forall t f : thread_id,
  exists tr' : list event,
    async_units tr' = units
    /\ (units = 0 -> tr' = [])
    /\ forall (k : A -> Prog unit) (tr : list event),
         run steps (Machine [(t, andThen c k)] f tr)
         = Machine [(delivery_thread t f units, k v)] (f + units) (tr ++ tr').
Proof.
  induction 1 as [A x| |s n|A pre next HS IHS Hnext IHnext].
  - exists 0, x, 0. intros t f. exists []. split; [reflexivity|].
    split; [reflexivity|]. intros k tr. simpl.
    rewrite Nat.add_0_r, app_nil_r. reflexivity.
  - exists 6, "Data from async", 1. intros t f. exists (asyncApi_trace t f).
    split; [reflexivity|]. split; [discriminate|].
    intros k tr. simpl andThen. unfold AsyncApi_andThen, delivery_thread.
    rewrite asyncApi_run. simpl. rewrite Nat.add_1_r.
    replace (S f - 1) with f by lia. reflexivity.
  - exists (8 * S (Z.to_nat n)), "Done!", (S (Z.to_nat n)). intros t f.
    destruct (LoopN_delivers_any s n t f) as (tr' & Hu & E).
    exists tr'. split; [exact Hu|]. split; [discriminate|].
    intros k tr. rewrite E. unfold delivery_thread. simpl.
    f_equal. f_equal. f_equal. lia.
  - destruct IHS as (n1 & v1 & u1 & IHS).
    destruct (IHnext v1) as (n2 & v2 & u2 & IH2).
    exists (n1 + S n2), v2, (u1 + u2). intros t f.
    destruct (IHS t f) as (tr1 & Hu1 & Hz1 & E1).
    destruct (IH2 (delivery_thread t f u1) (f + u1)) as (tr2 & Hu2 & Hz2 & E2).
    exists (tr1 ++ tr2). split; [|split].
    + rewrite async_units_app, Hu1, Hu2. reflexivity.
    + intros Hz. rewrite Hz1, Hz2 by lia. reflexivity.
    + intros k tr. rewrite run_add. simpl andThen. unfold Bind_andThen.
      rewrite E1. simpl run. unfold step at 1. simpl.
      rewrite E2, delivery_thread_next, Nat.add_assoc, app_assoc. reflexivity.
Qed.

(** X9: [LoopN] with a bound that is zero or negative: no bound is refused and
    none loops on; the activation does its one asynchronous unit of work and
    the thread it started goes on with [k "Done!"]. *)
Theorem LoopN_bound_not_positive (s : string) (n : Z) (k : string -> Prog unit)
    (t f : thread_id) (tr : list event) :
  (n <= 0)%Z ->
  run 8 (Machine [(t, andThen (LoopN s n) k)] f tr)
  = Machine [(f, k "Done!")] (S f)
      (tr ++ [Printed t [Str "[LoopN::andThen] "; Str s; Str " "; Int n; Endl];
              Printed t [Str "called async in thread: "; Tid t; Endl];
              Started t f;
              Printed f [Str "Started async, sleeping 3secs"; Endl];
              Slept f 3]).
Proof.
  intros Hn. apply LoopN_run_last. exact Hn.
Qed.

Lemma LoopN_bound_not_positive_witness :
  run 8 (boot (andThen (LoopN "Loop: " (-3)) myAsyncHandler))
  = Machine [(1, myAsyncHandler "Done!")] 2
      ([] ++ [Printed 0 [Str "[LoopN::andThen] "; Str "Loop: "; Str " "; Int (-3); Endl];
              Printed 0 [Str "called async in thread: "; Tid 0; Endl];
              Started 0 1;
              Printed 1 [Str "Started async, sleeping 3secs"; Endl];
              Slept 1 3]).
Proof.
  apply (LoopN_bound_not_positive "Loop: " (-3) myAsyncHandler 0 1 []). lia.
Defined.

(** X10: A chain built from [Return], [AsyncApi], [LoopN] with any bound, and
    [Bind], driven with [k] by an only thread [t]: after a number of
    instructions and of asynchronous units of work that are the same for
    every [k], the only thread left is about to run [k v].  It is the thread
    [t] itself, with nothing logged, when the chain has done no unit of work,
    and else the last thread the chain started, never [t]. *)
Theorem bounded_chain_delivers_once {A : Type} (c : Continuator unit A) :
  bounded c ->
  exists (steps : nat) (v : A) (units : nat),
  forall t f : thread_id,
  exists tr' : list event,
    async_units tr' = units
    /\ (units = 0 -> tr' = [])
    /\ (t < f -> 0 < units -> delivery_thread t f units <> t)
    /\ forall (k : A -> Prog unit) (tr : list event),
         run steps (Machine [(t, andThen c k)] f tr)
         = Machine [(delivery_thread t f units, k v)] (f + units) (tr ++ tr').
Proof.
  intros Hc. destruct (bounded_delivers c Hc) as (steps & v & units & H).
  exists steps, v, units. intros t f. destruct (H t f) as (tr' & Hu & Hz & E).
  exists tr'. split; [exact Hu|]. split; [exact Hz|]. split; [|exact E].
  intros Htf Hpos. unfold delivery_thread.
  destruct units as [|units]; simpl; lia.
Qed.

Lemma bounded_chain_delivers_once_witness :
  exists (steps : nat) (v : string) (units : nat),
  forall t f : thread_id,
  exists tr' : list event,
    async_units tr' = units
    /\ (units = 0 -> tr' = [])
    /\ (t < f -> 0 < units -> delivery_thread t f units <> t)
    /\ forall (k : string -> Prog unit) (tr : list event),
         run steps
           (Machine [(t, andThen (Bind (LoopN "Loop: " 2) (fun s => Bind AsyncApi (fun _ => Return s))) k)]
              f tr)
         = Machine [(delivery_thread t f units, k v)] (f + units) (tr ++ tr').
Proof.
  apply (bounded_chain_delivers_once
           (Bind (LoopN "Loop: " 2) (fun s => Bind AsyncApi (fun _ => Return s)))).
  repeat constructor.
Defined.

(** X11: [Return] is an identity of [Bind] on both sides.  A machine that drives
    [Bind (Return v) next] and one that drives [next v], and a machine that
    drives [Bind pre Return] and one that drives [pre], with the same [k] and
    from the same state: whatever one of the two has logged and started at
    some time, the other has at some time; they differ by the calls through
    a pointer the [Bind] has yet to enter. *)
Theorem Return_is_identity_of_Bind {A : Type} (pre : Continuator unit A) (v : A)
    (next : A -> Continuator unit A) (k : A -> Prog unit)
    (t : thread_id) (others : list (thread_id * Prog unit))
    (f : thread_id) (tr : list event) :
  ((forall n : nat, exists m : nat,
      same_events
        (run m (Machine ((t, andThen (Bind (Return v) next) k) :: others) f tr))
        (run n (Machine ((t, andThen (next v) k) :: others) f tr)))
   /\ (forall m : nat, exists n : nat,
         same_events
           (run m (Machine ((t, andThen (Bind (Return v) next) k) :: others) f tr))
           (run n (Machine ((t, andThen (next v) k) :: others) f tr))))
  /\ ((forall n : nat, exists m : nat,
         same_events
           (run m (Machine ((t, andThen (Bind pre (fun a => Return a)) k) :: others) f tr))
           (run n (Machine ((t, andThen pre k) :: others) f tr)))
      /\ (forall m : nat, exists n : nat,
            same_events
              (run m (Machine ((t, andThen (Bind pre (fun a => Return a)) k) :: others) f tr))
              (run n (Machine ((t, andThen pre k) :: others) f tr)))).
Proof.
  assert (Hl : machine_rel (@ahead)
    (Machine ((t, andThen (Bind (Return v) next) k) :: others) f tr)
    (Machine ((t, andThen (next v) k) :: others) f tr)).
  { repeat split; simpl.
    constructor; [|apply threads_rel_refl; intros; apply ahead_refl].
    split; [reflexivity|]. simpl. unfold Bind_andThen.
    apply ahead_enter, ahead_refl. }
  assert (Hr : machine_rel (@ahead)
    (Machine ((t, andThen (Bind pre (fun a => Return a)) k) :: others) f tr)
    (Machine ((t, andThen pre k) :: others) f tr)).
  { repeat split; simpl.
    constructor; [|apply threads_rel_refl; intros; apply ahead_refl].
    split; [reflexivity|]. simpl. unfold Bind_andThen.
    apply andThen_ahead. intros a. apply ahead_enter. simpl. apply ahead_refl. }
  split; split.
  - intros n. destruct (ahead_forth n _ _ Hl) as (m & Hm).
    exists m. apply (machine_rel_same_events (@ahead)), Hm.
  - intros m. destruct (ahead_back m _ _ Hl) as (n & Hn).
    exists n. apply (machine_rel_same_events (@ahead)), Hn.
  - intros n. destruct (ahead_forth n _ _ Hr) as (m & Hm).
    exists m. apply (machine_rel_same_events (@ahead)), Hm.
  - intros m. destruct (ahead_back m _ _ Hr) as (n & Hn).
    exists n. apply (machine_rel_same_events (@ahead)), Hn.
Qed.

End ChainFacts.

(** ** The register access policies *)

Module RegisterFacts.
Import Register.
Local Open Scope Z_scope.

Lemma wrap_testbit (z i : Z) :
  0 <= i -> Z.testbit (wrap z) i = (Z.testbit z i && (i <? unsigned_bits))%bool.
Proof.
  intros Hi. unfold wrap, unsigned_bits in *.
  destruct (Z.ltb_spec i 32) as [H|H].
  - rewrite Z.mod_pow2_bits_low by lia. rewrite andb_true_r. reflexivity.
  - rewrite Z.mod_pow2_bits_high by lia. rewrite andb_false_r. reflexivity.
Qed.

Lemma unsigned_testbit_high (z i : Z) :
  is_unsigned z -> unsigned_bits <= i -> Z.testbit z i = false.
Proof.
  unfold is_unsigned, unsigned_bits. intros Hz Hi.
  rewrite <- (Z.mod_small z (2 ^ 32)) by lia.
  apply Z.mod_pow2_bits_high. lia.
Qed.

Lemma shl_testbit (a b i : Z) :
  0 <= b -> 0 <= i ->
  Z.testbit (shl a b) i
  = (Z.testbit a (i - b) && (i <? unsigned_bits))%bool.
Proof.
  intros Hb Hi. unfold shl. rewrite wrap_testbit by exact Hi.
  rewrite Z.shiftl_spec by exact Hi. reflexivity.
Qed.

Lemma compl_testbit (a i : Z) :
  0 <= i ->
  Z.testbit (compl a) i = (negb (Z.testbit a i) && (i <? unsigned_bits))%bool.
Proof.
  intros Hi. unfold compl. rewrite wrap_testbit by exact Hi.
  rewrite Z.lnot_spec by exact Hi. reflexivity.
Qed.

(** A bit of the mask that is set lies below the top of a field that fits. *)
Lemma mask_bit_fits (mask offset i : Z) :
  0 <= mask -> 0 <= offset -> 0 <= i ->
  mask * 2 ^ offset < 2 ^ unsigned_bits ->
  Z.testbit mask i = true -> i + offset < unsigned_bits.
Proof.
  unfold unsigned_bits. intros Hm Ho Hi Hfit Hbit.
  destruct (Z.lt_ge_cases (i + offset) 32) as [H|H]; [exact H|exfalso].
  assert (Hpos : 0 < mask).
  { destruct (Z.eq_dec mask 0) as [->|]; [|lia].
    rewrite Z.bits_0 in Hbit. discriminate. }
  assert (Hlog : i <= Z.log2 mask).
  { destruct (Z.le_gt_cases i (Z.log2 mask)) as [Hle|Hgt]; [exact Hle|].
    rewrite Z.bits_above_log2 in Hbit by lia. discriminate. }
  pose proof (Z.log2_spec mask Hpos) as [Hlo _].
  assert (2 ^ i <= mask).
  { apply Z.le_trans with (2 ^ Z.log2 mask); [|exact Hlo].
    apply Z.pow_le_mono_r; lia. }
  assert (2 ^ 32 <= 2 ^ (i + offset)) by (apply Z.pow_le_mono_r; lia).
  rewrite Z.pow_add_r in * by lia.
  assert (2 ^ i * 2 ^ offset <= mask * 2 ^ offset).
  { apply Z.mul_le_mono_nonneg_r; [apply Z.pow_nonneg|]; lia. }
  lia.
Qed.

(** The fields [hw::mr::clockdiv] and [hw::mr::delay] of the mode register. *)
Example mr_fields :
  rw_t.write (rw_t.write 0 0xff 0 0x12) 0xf 8 0x5 = 0x512
  /\ rw_t.read 0x512 0xff 0 = 0x12
  /\ rw_t.read 0x512 0xf 8 = 0x5.
Proof.
  repeat split.
Qed.

(** C9, as the code has it: on 32-bit values and an offset below 32, a write
    of [rw_t] leaves every bit outside the field [mask << offset] as it was;
    and when the field fits the register ([mask << offset] loses no bit of
    [mask]), reading the field back gives [v & mask]. *)
Theorem rw_write_then_read (r mask offset v : Z) :
  is_unsigned r -> is_unsigned mask -> is_unsigned v ->
  0 <= offset < unsigned_bits ->
  (mask * 2 ^ offset < 2 ^ unsigned_bits ->
   rw_t.read (rw_t.write r mask offset v) mask offset = Z.land v mask)
  /\ (forall i : Z, 0 <= i ->
        Z.testbit (shl mask offset) i = false ->
        Z.testbit (rw_t.write r mask offset v) i = Z.testbit r i).
Proof.
  intros Hr Hm Hv Ho. split.
  - intros Hfit. unfold rw_t.read, ro_t.read, rw_t.write, shr.
    apply Z.bits_inj'. intros i Hi.
    rewrite !Z.land_spec, Z.shiftr_spec, Z.lor_spec, Z.land_spec by exact Hi.
    rewrite compl_testbit, !shl_testbit by lia.
    rewrite Z.land_spec. replace (i + offset - offset) with i by lia.
    destruct (Z.testbit mask i) eqn:Hbit.
    + assert (i + offset < unsigned_bits)
        by (apply (mask_bit_fits mask offset i);
            first [assumption | unfold is_unsigned in *; lia]).
      replace (i + offset <? unsigned_bits) with true
        by (symmetry; apply Z.ltb_lt; assumption).
      simpl. rewrite !andb_true_r, andb_false_r. reflexivity.
    + rewrite !andb_false_r. reflexivity.
  - intros i Hi Hout. unfold rw_t.write.
    rewrite Z.lor_spec, Z.land_spec.
    rewrite compl_testbit, Hout, shl_testbit by lia.
    rewrite shl_testbit in Hout by lia.
    rewrite Z.land_spec.
    destruct (Z.ltb_spec i unsigned_bits) as [Hlt|Hge].
    + rewrite andb_true_r in Hout. rewrite Hout. simpl.
      rewrite !andb_true_r, andb_false_r, orb_false_r. reflexivity.
    + rewrite (unsigned_testbit_high r i Hr Hge), !andb_false_r. reflexivity.
Qed.

Lemma rw_write_then_read_witness :
  rw_t.read (rw_t.write 0xffffffff 0xf 8 0x35) 0xf 8 = Z.land 0x35 0xf
  /\ (forall i : Z, 0 <= i ->
        Z.testbit (shl 0xf 8) i = false ->
        Z.testbit (rw_t.write 0xffffffff 0xf 8 0x35) i = Z.testbit 0xffffffff i).
Proof.
  destruct (rw_write_then_read 0xffffffff 0xf 8 0x35) as [Hread Hframe];
    try (unfold is_unsigned, unsigned_bits; lia).
  split; [apply Hread; unfold unsigned_bits; lia|exact Hframe].
Defined.

(** C9 does not hold for every mask and offset: a field of eight bits at
    offset 28 loses its upper four bits in the write, and the value read back
    is [0xf], not [0xff & 0xff]. *)
Lemma rw_field_past_the_top :
  rw_t.write 0 0xff 28 0xff = 0xf0000000
  /\ rw_t.read (rw_t.write 0 0xff 28 0xff) 0xff 28 = 0xf
  /\ Z.land 0xff 0xff = 0xff.
Proof.
  repeat split.
Qed.

(** *** The policies bit by bit *)

Lemma rw_write_testbit (r mask offset v i : Z) :
  0 <= offset -> 0 <= i ->
  Z.testbit (rw_t.write r mask offset v) i
  = ((i <? unsigned_bits)
     && (if Z.testbit mask (i - offset) then Z.testbit v (i - offset)
         else Z.testbit r i))%bool.
Proof.
  intros Ho Hi. unfold rw_t.write.
  rewrite Z.lor_spec, Z.land_spec, compl_testbit, !shl_testbit, Z.land_spec by lia.
  destruct (Z.testbit mask (i - offset)), (i <? unsigned_bits),
    (Z.testbit r i), (Z.testbit v (i - offset)); reflexivity.
Qed.

Lemma wo_write_testbit (r mask offset v i : Z) :
  0 <= offset -> 0 <= i ->
  Z.testbit (wo_t.write r mask offset v) i
  = ((i <? unsigned_bits)
     && (Z.testbit mask (i - offset) && Z.testbit v (i - offset)))%bool.
Proof.
  intros Ho Hi. unfold wo_t.write.
  rewrite shl_testbit, Z.land_spec by lia.
  destruct (Z.testbit mask (i - offset)), (i <? unsigned_bits),
    (Z.testbit v (i - offset)); reflexivity.
Qed.

Lemma ro_read_testbit (r mask offset i : Z) :
  0 <= offset -> 0 <= i ->
  Z.testbit (ro_t.read r mask offset) i
  = (Z.testbit r (i + offset) && Z.testbit mask i)%bool.
Proof.
  intros Ho Hi. unfold ro_t.read, shr.
  rewrite Z.land_spec, Z.shiftr_spec by lia. reflexivity.
Qed.

(** A bit of a field that is set: the bit of the mask is, and it lies in the
    register. *)
Lemma field_testbit (mask offset i : Z) :
  0 <= offset -> 0 <= i ->
  Z.testbit (shl mask offset) i
  = (Z.testbit mask (i - offset) && (i <? unsigned_bits))%bool.
Proof.
  intros Ho Hi. apply shl_testbit; assumption.
Qed.

(** Two fields that share no bit: no bit of the register is in both. *)
Lemma disjoint_fields (m1 o1 m2 o2 i : Z) :
  0 <= o1 -> 0 <= o2 -> 0 <= i -> i < unsigned_bits ->
  Z.land (shl m1 o1) (shl m2 o2) = 0 ->
  Z.testbit m1 (i - o1) = true -> Z.testbit m2 (i - o2) = false.
Proof.
  intros H1 H2 Hi Hlt Hd Hb.
  assert (Hbit : Z.testbit (Z.land (shl m1 o1) (shl m2 o2)) i = false)
    by (rewrite Hd; apply Z.bits_0).
  rewrite Z.land_spec, !field_testbit, Hb in Hbit by lia.
  replace (i <? unsigned_bits) with true in Hbit
    by (symmetry; apply Z.ltb_lt; exact Hlt).
  simpl in Hbit. rewrite andb_true_r in Hbit. exact Hbit.
Qed.

(** What is read from a field that fits, after a write of the read/write
    policy to the field. *)
Lemma rw_read_back (r mask offset v : Z) :
  0 <= mask -> 0 <= offset ->
  mask * 2 ^ offset < 2 ^ unsigned_bits ->
  ro_t.read (rw_t.write r mask offset v) mask offset = Z.land v mask.
Proof.
  intros Hm Ho Hfit. apply Z.bits_inj'. intros i Hi.
  rewrite ro_read_testbit, rw_write_testbit, Z.land_spec by lia.
  replace (i + offset - offset) with i by lia.
  destruct (Z.testbit mask i) eqn:Hbit.
  - pose proof (mask_bit_fits mask offset i Hm Ho Hi Hfit Hbit) as Hlt.
    replace (i + offset <? unsigned_bits) with true
      by (symmetry; apply Z.ltb_lt; exact Hlt).
    destruct (Z.testbit v i); reflexivity.
  - rewrite !andb_false_r. reflexivity.
Qed.

Lemma wrap_unsigned (z : Z) : is_unsigned (wrap z).
Proof.
  unfold is_unsigned, wrap, unsigned_bits. apply Z.mod_pos_bound. lia.
Qed.

Lemma rw_write_unsigned (r mask offset v : Z) :
  0 <= offset -> is_unsigned (rw_t.write r mask offset v).
Proof.
  intros Ho.
  replace (rw_t.write r mask offset v) with (wrap (rw_t.write r mask offset v));
    [apply wrap_unsigned|].
  apply Z.bits_inj'. intros i Hi.
  rewrite wrap_testbit, rw_write_testbit by lia.
  destruct (i <? unsigned_bits); [apply andb_true_r|reflexivity].
Qed.

(** A field read after a write to another field of the register. *)
Lemma rw_read_other_field (r m1 o1 v m2 o2 : Z) :
  is_unsigned r -> 0 <= o1 -> 0 <= o2 ->
  Z.land (shl m1 o1) (shl m2 o2) = 0 ->
  ro_t.read (rw_t.write r m1 o1 v) m2 o2 = ro_t.read r m2 o2.
Proof.
  intros Hr H1 H2 Hd. apply Z.bits_inj'. intros i Hi.
  rewrite !ro_read_testbit, rw_write_testbit by lia.
  destruct (Z.testbit m2 i) eqn:Hb2; [|rewrite !andb_false_r; reflexivity].
  rewrite !andb_true_r.
  destruct (Z.ltb_spec (i + o2) unsigned_bits) as [Hlt|Hge].
  - destruct (Z.testbit m1 (i + o2 - o1)) eqn:Hb1; [|reflexivity].
    pose proof (disjoint_fields m1 o1 m2 o2 (i + o2) H1 H2 ltac:(lia) Hlt Hd Hb1) as Hno.
    replace (i + o2 - o2) with i in Hno by lia. congruence.
  - rewrite (unsigned_testbit_high r (i + o2) Hr Hge). reflexivity.
Qed.

(** *** More on the policies *)

(** X1: Of two writes of the read/write policy to one field the second one
    counts; and writing back what was read from a field changes nothing. *)
Theorem rw_write_again (r mask offset v1 v2 : Z) :
  is_unsigned r -> 0 <= offset ->
  rw_t.write (rw_t.write r mask offset v1) mask offset v2
  = rw_t.write r mask offset v2
  /\ rw_t.write r mask offset (rw_t.read r mask offset) = r.
Proof.
  intros Hr Ho. split; apply Z.bits_inj'; intros i Hi.
  - rewrite !rw_write_testbit by lia.
    destruct (i <? unsigned_bits), (Z.testbit mask (i - offset)); reflexivity.
  - rewrite rw_write_testbit by lia. unfold rw_t.read.
    destruct (Z.ltb_spec i unsigned_bits) as [Hlt|Hge].
    + destruct (Z.lt_ge_cases (i - offset) 0) as [Hneg|Hpos].
      * rewrite (Z.testbit_neg_r mask) by exact Hneg. reflexivity.
      * rewrite ro_read_testbit by lia.
        replace (i - offset + offset) with i by lia.
        destruct (Z.testbit mask (i - offset)), (Z.testbit r i); reflexivity.
    + rewrite (unsigned_testbit_high r i Hr Hge). reflexivity.
Qed.

Lemma rw_write_again_witness :
  rw_t.write (rw_t.write 0x512 0xf 8 0x3) 0xf 8 0x7 = rw_t.write 0x512 0xf 8 0x7
  /\ rw_t.write 0x512 0xf 8 (rw_t.read 0x512 0xf 8) = 0x512.
Proof.
  apply (rw_write_again 0x512 0xf 8 0x3 0x7); unfold is_unsigned, unsigned_bits; lia.
Defined.

(** X2: Two fields of one register that share no bit, accessed through [reg_t]
    with the read/write policy: a write to one leaves what is read from the
    other, writes to the two can be done in either order, and no other
    address of the memory changes. *)
Theorem rw_fields_independent (address m1 o1 m2 o2 : Z) (mem : Z -> Z) :
  is_unsigned (mem address) -> 0 <= o1 -> 0 <= o2 ->
  Z.land (shl m1 o1) (shl m2 o2) = 0 ->
  (forall v : Z,
     reg_t.read rw_t.read address m2 o2
       (reg_t.write rw_t.write address m1 o1 v mem)
     = reg_t.read rw_t.read address m2 o2 mem)
  /\ (forall v1 v2 a : Z,
        reg_t.write rw_t.write address m2 o2 v2
          (reg_t.write rw_t.write address m1 o1 v1 mem) a
        = reg_t.write rw_t.write address m1 o1 v1
            (reg_t.write rw_t.write address m2 o2 v2 mem) a)
  /\ (forall v a : Z, a <> address ->
        reg_t.write rw_t.write address m1 o1 v mem a = mem a).
Proof.
  intros Hr H1 H2 Hd. split; [|split].
  - intros v. unfold reg_t.read, reg_t.write, rw_t.read.
    destruct (Z.eq_dec address address) as [_|Hne]; [|contradiction].
    apply rw_read_other_field; assumption.
  - intros v1 v2 a. unfold reg_t.write.
    destruct (Z.eq_dec a address) as [->|Hne]; [|reflexivity].
    destruct (Z.eq_dec address address) as [_|Hne]; [|contradiction].
    apply Z.bits_inj'. intros i Hi. rewrite !rw_write_testbit by lia.
    destruct (Z.ltb_spec i unsigned_bits) as [Hlt|Hge]; [|reflexivity].
    destruct (Z.testbit m1 (i - o1)) eqn:Hb1; [|reflexivity].
    rewrite (disjoint_fields m1 o1 m2 o2 i H1 H2 Hi Hlt Hd Hb1). reflexivity.
  - intros v a Hne. unfold reg_t.write.
    destruct (Z.eq_dec a address) as [->|_]; [contradiction|reflexivity].
Qed.

(** [hw::mr::clockdiv] and [hw::mr::delay]. *)
Lemma rw_fields_independent_witness :
  (forall v : Z,
     hw.mr.delay_read (hw.mr.clockdiv_write v (fun _ => 0x512))
     = hw.mr.delay_read (fun _ => 0x512))
  /\ (forall v1 v2 a : Z,
        hw.mr.delay_write v2 (hw.mr.clockdiv_write v1 (fun _ => 0x512)) a
        = hw.mr.clockdiv_write v1 (hw.mr.delay_write v2 (fun _ => 0x512)) a)
  /\ (forall v a : Z, a <> mr_base ->
        hw.mr.clockdiv_write v (fun _ => 0x512) a = 0x512).
Proof.
  apply (rw_fields_independent mr_base 0xff 0 0xf 8 (fun _ => 0x512));
    first [reflexivity | unfold is_unsigned, unsigned_bits; lia].
Defined.

(** X3: The write-only policy writes what the read/write policy writes to a
    register of zeros, whatever the register held: every bit outside the
    field is cleared, and a field that fits holds [value & mask]. *)
Theorem wo_write_clears_the_rest (r mask offset v : Z) :
  0 <= mask -> 0 <= offset ->
  wo_t.write r mask offset v = rw_t.write 0 mask offset v
  /\ (forall i : Z, 0 <= i ->
        Z.testbit (shl mask offset) i = false ->
        Z.testbit (wo_t.write r mask offset v) i = false)
  /\ (mask * 2 ^ offset < 2 ^ unsigned_bits ->
      ro_t.read (wo_t.write r mask offset v) mask offset = Z.land v mask).
Proof.
  intros Hm Ho.
  assert (E : wo_t.write r mask offset v = rw_t.write 0 mask offset v).
  { apply Z.bits_inj'. intros i Hi.
    rewrite wo_write_testbit, rw_write_testbit, Z.bits_0 by lia.
    destruct (Z.testbit mask (i - offset)); reflexivity. }
  split; [exact E|]. split.
  - intros i Hi Hout. rewrite wo_write_testbit by lia.
    rewrite field_testbit in Hout by lia.
    destruct (i <? unsigned_bits); [|reflexivity].
    rewrite andb_true_r in Hout. rewrite Hout. reflexivity.
  - intros Hfit. rewrite E. apply rw_read_back; assumption.
Qed.

(** [hw::cr::disable::write(1)]: the control register is [0x2], the enable
    bit is not kept. *)
Lemma wo_write_clears_the_rest_witness :
  wo_t.write 0x1 0x1 1 1 = rw_t.write 0 0x1 1 1
  /\ (forall i : Z, 0 <= i ->
        Z.testbit (shl 0x1 1) i = false ->
        Z.testbit (wo_t.write 0x1 0x1 1 1) i = false)
  /\ ro_t.read (wo_t.write 0x1 0x1 1 1) 0x1 1 = Z.land 1 0x1.
Proof.
  destruct (wo_write_clears_the_rest 0x1 0x1 1 1) as (E & Hout & Hread); try lia.
  split; [exact E|]. split; [exact Hout|]. apply Hread. unfold unsigned_bits. lia.
Defined.

(** X4: The keyed write-only policy: whatever is written, and to whatever field,
    the key field of the register holds the key; and a field that fits and
    shares no bit with the key field holds [value & mask]. *)
Theorem keyed_write_holds_the_key (key_mask key_offset key_value : Z)
    (r mask offset v : Z) :
  0 <= key_mask -> 0 <= key_offset ->
  key_mask * 2 ^ key_offset < 2 ^ unsigned_bits ->
  0 <= mask -> 0 <= offset ->
  ro_t.read (keyed_wo_t.write key_mask key_offset key_value r mask offset v)
    key_mask key_offset
  = Z.land key_value key_mask
  /\ (mask * 2 ^ offset < 2 ^ unsigned_bits ->
      Z.land (shl key_mask key_offset) (shl mask offset) = 0 ->
      ro_t.read (keyed_wo_t.write key_mask key_offset key_value r mask offset v)
        mask offset
      = Z.land v mask).
Proof.
  intros Hkm Hko Hkfit Hm Ho.
  change (keyed_wo_t.write key_mask key_offset key_value r mask offset v)
    with (rw_t.write (wo_t.write r mask offset v) key_mask key_offset key_value).
  split.
  - apply rw_read_back; assumption.
  - intros Hfit Hd.
    rewrite rw_read_other_field; [|apply wrap_unsigned|assumption..].
    replace (wo_t.write r mask offset v) with (rw_t.write 0 mask offset v).
    + apply rw_read_back; assumption.
    + apply Z.bits_inj'. intros i Hi.
      rewrite wo_write_testbit, rw_write_testbit, Z.bits_0 by lia.
      destruct (Z.testbit mask (i - offset)); reflexivity.
Qed.

(** [hw::rst::reset::write(1)]: the key [0xac] is in the top byte. *)
Lemma keyed_write_holds_the_key_witness :
  ro_t.read (keyed_wo_t.write 0xff 24 0xac 0 0x1 0 1) 0xff 24 = Z.land 0xac 0xff
  /\ ro_t.read (keyed_wo_t.write 0xff 24 0xac 0 0x1 0 1) 0x1 0 = Z.land 1 0x1.
Proof.
  destruct (keyed_write_holds_the_key 0xff 24 0xac 0 0x1 0 1) as (Hkey & Hval);
    try (unfold unsigned_bits; lia).
  split; [exact Hkey|]. apply Hval; [unfold unsigned_bits; lia|reflexivity].
Defined.

(** What [ro_test_t::run] prints for a field that fits. *)
Lemma ro_test_run_fit (mem : Z -> Z) (mask offset : Z) :
  0 <= mask -> 0 <= offset ->
  mask * 2 ^ offset < 2 ^ unsigned_bits ->
  ro_test_t.run mem mask offset
  = [[Chain.Int mask; Chain.Str " : "; Chain.Int mask; Chain.Endl];
     [Chain.Int 0; Chain.Endl]].
Proof.
  intros Hm Ho Hfit. unfold ro_test_t.run, reg_t.read, soft_ro_t.read.
  assert (Hon : ro_t.read (shl mask offset) mask offset = mask).
  { apply Z.bits_inj'. intros i Hi.
    rewrite ro_read_testbit, field_testbit by lia.
    replace (i + offset - offset) with i by lia.
    destruct (Z.testbit mask i) eqn:Hbit; [|reflexivity].
    pose proof (mask_bit_fits mask offset i Hm Ho Hi Hfit Hbit) as Hlt.
    replace (i + offset <? unsigned_bits) with true
      by (symmetry; apply Z.ltb_lt; exact Hlt).
    reflexivity. }
  assert (Hoff : ro_t.read (compl (shl mask offset)) mask offset = 0).
  { apply Z.bits_inj'. intros i Hi.
    rewrite ro_read_testbit, compl_testbit, field_testbit, Z.bits_0 by lia.
    replace (i + offset - offset) with i by lia.
    destruct (Z.testbit mask i), (i + offset <? unsigned_bits); reflexivity. }
  rewrite Hon, Hoff. reflexivity.
Qed.

(** X5: The read-only test of a field that fits: the soft register with the
    field set reads as the mask, the one with the field cleared reads as
    zero, so [ro_test_t::run] prints the mask twice on its first line and [0]
    on its second, whatever the memory holds. *)
Theorem ro_test_prints_the_mask (mem : Z -> Z) (mask offset : Z) :
  0 <= mask -> 0 <= offset ->
  mask * 2 ^ offset < 2 ^ unsigned_bits ->
  ro_test_t.run mem mask offset
  = [[Chain.Int mask; Chain.Str " : "; Chain.Int mask; Chain.Endl];
     [Chain.Int 0; Chain.Endl]].
Proof.
  intros Hm Ho Hfit. apply ro_test_run_fit; assumption.
Qed.

Lemma ro_test_prints_the_mask_witness :
  ro_test_t.run (fun _ => 0) 0xff 24
  = [[Chain.Int 0xff; Chain.Str " : "; Chain.Int 0xff; Chain.Endl];
     [Chain.Int 0; Chain.Endl]].
Proof.
  apply (ro_test_prints_the_mask (fun _ => 0) 0xff 24); unfold unsigned_bits; lia.
Defined.

(** *** The test generator *)

Lemma num_shifts_t_eq (depth : nat) (mask : Z) :
  num_shifts_t depth mask
  = if mask =? 0xffffffff then Some 0
    else match depth with
         | O => None
         | S depth' =>
             match num_shifts_t depth' (Z.lor (shl mask 1) 1) with
             | Some value => Some (1 + value)
             | None => None
             end
         end.
Proof.
  destruct depth; reflexivity.
Qed.

Lemma generate_masks_t_eq {X : Type} (depth : nat) (test : Z -> Z -> list X)
    (mask : Z) :
  generate_masks_t depth test mask
  = if mask =? 0xffffffff
    then match num_shifts_t depth 0xffffffff with
         | Some value => Some (generate_offsets_t test 0xffffffff (Z.to_nat value))
         | None => None
         end
    else match depth with
         | O => None
         | S depth' =>
             match num_shifts_t depth mask,
                   generate_masks_t depth' test (Z.lor (shl mask 1) 1) with
             | Some value, Some rest =>
                 Some (generate_offsets_t test mask (Z.to_nat value) ++ rest)%list
             | _, _ => None
             end
         end.
Proof.
  destruct depth; reflexivity.
Qed.

(** The next mask after the one of [w] low bits is the one of [w + 1]. *)
Lemma next_mask (w : Z) :
  0 <= w < unsigned_bits ->
  Z.lor (shl (2 ^ w - 1) 1) 1 = 2 ^ (w + 1) - 1.
Proof.
  unfold unsigned_bits. intros Hw.
  replace (2 ^ w - 1) with (Z.ones w) by (rewrite Z.ones_equiv; lia).
  replace (2 ^ (w + 1) - 1) with (Z.ones (w + 1)) by (rewrite Z.ones_equiv; lia).
  apply Z.bits_inj'. intros i Hi.
  rewrite Z.lor_spec, shl_testbit by lia.
  change 1 with (Z.ones 1) at 2.
  destruct (Z.eq_dec i 0) as [->|Hne].
  - rewrite (Z.ones_spec_low 1 0), (Z.ones_spec_low (w + 1) 0) by lia.
    apply orb_true_r.
  - rewrite (Z.ones_spec_high 1 i), orb_false_r by lia.
    destruct (Z.lt_ge_cases (i - 1) w) as [Hlt|Hge].
    + rewrite (Z.ones_spec_low w (i - 1)), (Z.ones_spec_low (w + 1) i) by lia.
      unfold unsigned_bits. apply Z.ltb_lt. lia.
    + rewrite (Z.ones_spec_high w (i - 1)), (Z.ones_spec_high (w + 1) i) by lia.
      reflexivity.
Qed.

Lemma mask_below_full (w : Z) :
  0 <= w < unsigned_bits -> (2 ^ w - 1 =? 0xffffffff) = false.
Proof.
  unfold unsigned_bits. intros Hw. apply Z.eqb_neq.
  assert (2 ^ w < 2 ^ 32) by (apply Z.pow_lt_mono_r; lia). lia.
Qed.

(** The mask of [w] low bits can be shifted [32 - w] times. *)
Lemma num_shifts_t_low_bits (j : nat) :
  forall (depth : nat) (w : Z),
  0 <= w -> w + Z.of_nat j = unsigned_bits -> (j <= depth)%nat ->
  num_shifts_t depth (2 ^ w - 1) = Some (Z.of_nat j).
Proof.
  induction j as [|j IH]; intros depth w Hw Hsum Hd; rewrite num_shifts_t_eq.
  - replace w with 32 by (unfold unsigned_bits in Hsum; lia). reflexivity.
  - rewrite mask_below_full by lia.
    destruct depth as [|depth]; [lia|].
    rewrite next_mask by lia. rewrite (IH depth (w + 1)) by lia.
    f_equal. lia.
Qed.

Lemma generate_offsets_t_In {X : Type} (test : Z -> Z -> list X) (mask : Z)
    (n : nat) (x : X) :
  In x (generate_offsets_t test mask n)
  <-> exists o : nat, (o <= n)%nat /\ In x (test mask (Z.of_nat o)).
Proof.
  induction n as [|n IH].
  - simpl. split.
    + intros H. exists O. split; [lia|exact H].
    + intros (o & Ho & H). replace o with O in H by lia. exact H.
  - cbn [generate_offsets_t]. rewrite in_app_iff, IH. split.
    + intros [H|(o & Ho & H)].
      * exists (S n). split; [lia|exact H].
      * exists o. split; [lia|exact H].
    + intros (o & Ho & H). destruct (Nat.eq_dec o (S n)) as [->|Hne].
      * left. exact H.
      * right. exists o. split; [lia|exact H].
Qed.

Lemma generate_masks_t_In {X : Type} (test : Z -> Z -> list X) (j : nat) :
  forall (depth : nat) (w : Z),
  0 <= w -> w + Z.of_nat j = unsigned_bits -> (j <= depth)%nat ->
  exists l : list X,
    generate_masks_t depth test (2 ^ w - 1) = Some l
    /\ forall x : X,
         In x l
         <-> exists (w' : Z) (o : nat),
               w <= w' <= unsigned_bits /\ Z.of_nat o <= unsigned_bits - w'
               /\ In x (test (2 ^ w' - 1) (Z.of_nat o)).
Proof.
  induction j as [|j IH]; intros depth w Hw Hsum Hd; rewrite generate_masks_t_eq.
  - assert (w = 32) as -> by (unfold unsigned_bits in Hsum; lia).
    change (2 ^ 32 - 1 =? 0xffffffff) with true. cbn iota.
    replace (num_shifts_t depth 0xffffffff) with (Some 0)
      by (rewrite num_shifts_t_eq; reflexivity).
    eexists. split; [reflexivity|]. intros x. simpl. split.
    + intros H. exists 32, O. unfold unsigned_bits. repeat split; try lia. exact H.
    + intros (w' & o & Hw' & Ho & H). unfold unsigned_bits in *.
      assert (w' = 32) as -> by lia. replace o with O in H by lia. exact H.
  - rewrite mask_below_full by lia.
    destruct depth as [|depth]; [lia|].
    rewrite (num_shifts_t_low_bits (S j) (S depth) w) by lia.
    rewrite next_mask by lia.
    destruct (IH depth (w + 1)) as (rest & E & Hrest); try lia.
    rewrite E. eexists. split; [reflexivity|]. intros x.
    rewrite in_app_iff, generate_offsets_t_In, Hrest, Nat2Z.id. split.
    + intros [(o & Ho & H)|(w' & o & Hw' & Ho & H)].
      * exists w, o. repeat split; try lia. exact H.
      * exists w', o. repeat split; try lia. exact H.
    + intros (w' & o & Hw' & Ho & H). destruct (Z.eq_dec w' w) as [->|Hne].
      * left. exists o. split; [lia|exact H].
      * right. exists w', o. repeat split; try lia. exact H.
Qed.

(** A field of [w] low bits at an offset fits the register when the offset
    is at most [32 - w]. *)
Lemma low_bits_fit (w o : Z) :
  1 <= w <= unsigned_bits -> 0 <= o ->
  ((2 ^ w - 1) * 2 ^ o < 2 ^ unsigned_bits <-> o <= unsigned_bits - w).
Proof.
  unfold unsigned_bits. intros Hw Ho.
  assert (Hp : 2 <= 2 ^ w).
  { change 2 with (2 ^ 1) at 1. apply Z.pow_le_mono_r; lia. }
  assert (Hq : 0 < 2 ^ o) by (apply Z.pow_pos_nonneg; lia).
  split.
  - intros Hfit. destruct (Z.le_gt_cases o (32 - w)) as [H|H]; [exact H|exfalso].
    assert (2 ^ (33 - w) <= 2 ^ o) by (apply Z.pow_le_mono_r; lia).
    assert (E : 2 ^ w * 2 ^ (33 - w) = 2 ^ 33)
      by (rewrite <- Z.pow_add_r by lia; f_equal; lia).
    assert (2 ^ (33 - w) <= 2 ^ 32) by (apply Z.pow_le_mono_r; lia).
    assert ((2 ^ w - 1) * 2 ^ (33 - w) <= (2 ^ w - 1) * 2 ^ o)
      by (apply Z.mul_le_mono_nonneg_l; lia).
    change (2 ^ 33) with (2 * 2 ^ 32) in E. lia.
  - intros Hle.
    assert (2 ^ o <= 2 ^ (32 - w)) by (apply Z.pow_le_mono_r; lia).
    assert (E : 2 ^ w * 2 ^ (32 - w) = 2 ^ 32)
      by (rewrite <- Z.pow_add_r by lia; f_equal; lia).
    assert ((2 ^ w - 1) * 2 ^ o <= (2 ^ w - 1) * 2 ^ (32 - w))
      by (apply Z.mul_le_mono_nonneg_l; lia).
    assert (0 < 2 ^ (32 - w)) by (apply Z.pow_pos_nonneg; lia).
    lia.
Qed.

Lemma generate_tests_t_In {X : Type} (test : Z -> Z -> list X) (depth : nat) :
  (31 <= depth)%nat ->
  exists l : list X,
    generate_tests_t depth test = Some l
    /\ forall x : X,
         In x l
         <-> exists w o : Z,
               1 <= w <= unsigned_bits /\ 0 <= o
               /\ (2 ^ w - 1) * 2 ^ o < 2 ^ unsigned_bits
               /\ In x (test (2 ^ w - 1) o).
Proof.
  intros Hd.
  destruct (generate_masks_t_In test 31 depth 1) as (l & E & Hl);
    try (unfold unsigned_bits; lia).
  exists l. split; [exact E|]. intros x. rewrite Hl. split.
  - intros (w & o & Hw & Ho & H). exists w, (Z.of_nat o).
    repeat split; try lia; [|exact H].
    apply low_bits_fit; lia.
  - intros (w & o & Hw & Ho & Hfit & H). exists w, (Z.to_nat o).
    rewrite Z2Nat.id by lia. repeat split; try lia; [|exact H].
    apply low_bits_fit; [lia|lia|exact Hfit].
Qed.

(** X6: [num_shifts_t] of the mask of [w] low bits is [32 - w]: the field fits
    at this offset, and at no larger one below the width of the register. *)
Theorem num_shifts_t_is_the_last_offset (depth : nat) (w : Z) :
  1 <= w <= unsigned_bits -> (32 <= depth)%nat ->
  num_shifts_t depth (2 ^ w - 1) = Some (unsigned_bits - w)
  /\ (2 ^ w - 1) * 2 ^ (unsigned_bits - w) < 2 ^ unsigned_bits
  /\ (forall o : Z, unsigned_bits - w < o ->
        2 ^ unsigned_bits <= (2 ^ w - 1) * 2 ^ o).
Proof.
  intros Hw Hd. split; [|split].
  - rewrite (num_shifts_t_low_bits (Z.to_nat (unsigned_bits - w)) depth w);
      unfold unsigned_bits in *; try lia.
    f_equal. lia.
  - apply low_bits_fit; unfold unsigned_bits in *; lia.
  - intros o Ho.
    destruct (Z.le_gt_cases (2 ^ unsigned_bits) ((2 ^ w - 1) * 2 ^ o)) as [H|H];
      [exact H|].
    apply low_bits_fit in H; unfold unsigned_bits in *; lia.
Qed.

(** The mask of [hw::mr::delay]. *)
Lemma num_shifts_t_is_the_last_offset_witness :
  num_shifts_t 32 (2 ^ 4 - 1) = Some (unsigned_bits - 4)
  /\ (2 ^ 4 - 1) * 2 ^ (unsigned_bits - 4) < 2 ^ unsigned_bits
  /\ (forall o : Z, unsigned_bits - 4 < o ->
        2 ^ unsigned_bits <= (2 ^ 4 - 1) * 2 ^ o).
Proof.
  apply (num_shifts_t_is_the_last_offset 32 4); unfold unsigned_bits; lia.
Defined.

(** X7: [generate_tests_t<test>::run()] runs [test<mask, offset>] for the masks
    of 1 to 32 low bits, each at the offsets at which the field fits the
    register, and for nothing else; 31 instantiations of the mask templates
    are enough. *)
Theorem generate_tests_t_runs_the_fields_that_fit {X : Type}
    (test : Z -> Z -> list X) (depth : nat) :
  (31 <= depth)%nat ->
  exists l : list X,
    generate_tests_t depth test = Some l
    /\ forall x : X,
         In x l
         <-> exists w o : Z,
               1 <= w <= unsigned_bits /\ 0 <= o
               /\ (2 ^ w - 1) * 2 ^ o < 2 ^ unsigned_bits
               /\ In x (test (2 ^ w - 1) o).
Proof.
  apply generate_tests_t_In.
Qed.

Lemma generate_tests_t_runs_the_fields_that_fit_witness :
  exists l : list (Z * Z),
    generate_tests_t 31 (fun mask offset => [(mask, offset)]) = Some l
    /\ forall x : Z * Z,
         In x l
         <-> exists w o : Z,
               1 <= w <= unsigned_bits /\ 0 <= o
               /\ (2 ^ w - 1) * 2 ^ o < 2 ^ unsigned_bits
               /\ In x [(2 ^ w - 1, o)].
Proof.
  apply (generate_tests_t_runs_the_fields_that_fit
           (fun mask offset => [(mask, offset)]) 31).
  lia.
Defined.

(** X8: [main] of the host executable example prints, whatever the memory holds,
    a line [m : m] for each mask [m] of 1 to 32 low bits and the line [0], and
    no other line: no read of a soft register gives a wrong value. *)
Theorem main_prints_matching_lines (mem : Z -> Z) (depth : nat) :
  (31 <= depth)%nat ->
  exists out : list (list Chain.item),
    main depth mem = Some out
    /\ forall line : list Chain.item,
         In line out
         <-> (exists w : Z,
                1 <= w <= unsigned_bits
                /\ line = [Chain.Int (2 ^ w - 1); Chain.Str " : ";
                           Chain.Int (2 ^ w - 1); Chain.Endl])
             \/ line = [Chain.Int 0; Chain.Endl].
Proof.
  intros Hd.
  destruct (generate_tests_t_In (ro_test_t.run mem) depth Hd) as (out & E & Hout).
  exists out. split; [exact E|]. intros line. rewrite Hout. split.
  - intros (w & o & Hw & Ho & Hfit & H).
    assert (Hm : 0 <= 2 ^ w - 1).
    { assert (0 < 2 ^ w) by (apply Z.pow_pos_nonneg; lia). lia. }
    rewrite (ro_test_run_fit mem (2 ^ w - 1) o Hm Ho Hfit) in H.
    destruct H as [<-|[<-|[]]]; [left; exists w; split; [exact Hw|reflexivity]|].
    right. reflexivity.
  - intros H.
    assert (Hrun : forall w : Z, 1 <= w <= unsigned_bits ->
              ro_test_t.run mem (2 ^ w - 1) 0
              = [[Chain.Int (2 ^ w - 1); Chain.Str " : ";
                  Chain.Int (2 ^ w - 1); Chain.Endl];
                 [Chain.Int 0; Chain.Endl]]
              /\ (2 ^ w - 1) * 2 ^ 0 < 2 ^ unsigned_bits).
    { intros w Hw.
      assert (Hfit : (2 ^ w - 1) * 2 ^ 0 < 2 ^ unsigned_bits)
        by (apply low_bits_fit; unfold unsigned_bits in *; lia).
      split; [|exact Hfit]. apply ro_test_run_fit; [|lia|exact Hfit].
      assert (0 < 2 ^ w) by (apply Z.pow_pos_nonneg; lia). lia. }
    destruct H as [(w & Hw & Hline)|Hline]; subst line.
    + destruct (Hrun w Hw) as [Er Hfit]. exists w, 0.
      split; [exact Hw|]. split; [lia|]. split; [exact Hfit|].
      rewrite Er. left. reflexivity.
    + destruct (Hrun 1 ltac:(unfold unsigned_bits; lia)) as [Er Hfit]. exists 1, 0.
      split; [unfold unsigned_bits; lia|]. split; [lia|]. split; [exact Hfit|].
      rewrite Er. right. left. reflexivity.
Qed.

Lemma main_prints_matching_lines_witness :
  exists out : list (list Chain.item),
    main 31 (fun _ => 0) = Some out
    /\ forall line : list Chain.item,
         In line out
         <-> (exists w : Z,
                1 <= w <= unsigned_bits
                /\ line = [Chain.Int (2 ^ w - 1); Chain.Str " : ";
                           Chain.Int (2 ^ w - 1); Chain.Endl])
             \/ line = [Chain.Int 0; Chain.Endl].
Proof.
  apply (main_prints_matching_lines (fun _ => 0) 31). lia.
Defined.

End RegisterFacts.

(** ** The directives *)

Module DirectivesFacts.
Import Directives.
Local Open Scope directive_scope.

Lemma destination_call_spec (st : store) (m : ref) (msg : Message) (s : string) :
  st !! m = Some msg ->
  call (make.destination s) m st
  = (m, <[m := {| destination := s; source := source msg; id := id msg |}]> st).
Proof.
  intros H. unfold call, destination_call, make.destination. f_equal.
  apply map_eq. intros i. rewrite lookup_alter, lookup_insert.
  destruct (decide (m = i)) as [->|]; [rewrite H|]; reflexivity.
Qed.

Lemma source_call_spec (st : store) (m : ref) (msg : Message) (s : string) :
  st !! m = Some msg ->
  call (make.source s) m st
  = (m, <[m := {| destination := destination msg; source := s; id := id msg |}]> st).
Proof.
  intros H. unfold call, source_call, make.source. f_equal.
  apply map_eq. intros i. rewrite lookup_alter, lookup_insert.
  destruct (decide (m = i)) as [->|]; [rewrite H|]; reflexivity.
Qed.

Lemma id_call_spec (st : store) (m : ref) (msg : Message) (n : N) :
  st !! m = Some msg ->
  call (make.id n) m st
  = (m, <[m := {| destination := destination msg; source := source msg; id := n |}]> st).
Proof.
  intros H. unfold call, id_call, make.id. f_equal.
  apply map_eq. intros i. rewrite lookup_alter, lookup_insert.
  destruct (decide (m = i)) as [->|]; [rewrite H|]; reflexivity.
Qed.

(** [Message msg; msg << source("me") << destination("you") << id(47ULL);] *)
Example main_message :
  snd ((lvalue 0 << make.source "me" << make.destination "you" << make.id 47)
         {[0 := Message_new]}) !! 0
  = Some {| destination := "you"; source := "me"; id := 47 |}.
Proof.
  reflexivity.
Qed.

(** C10: [msg << destination(s)] on the message at [m] gives back the
    reference [m], sets the member [destination] of that message to [s], leaves
    its [source] and [id] as they were, and changes no other object.  The
    reference given back is the one taken, so a chain of directives works from
    left to right on the one message: after [source(a)], [destination(b)] and
    [destination(s)] the message has source [a] and destination [s]. *)
Theorem destination_sets_only_destination (st : gmap nat Message) (m : nat)
    (msg : Message) (s : string) :
  st !! m = Some msg ->
  fst ((lvalue m << make.destination s) st) = m
  /\ snd ((lvalue m << make.destination s) st) !! m
     = Some {| destination := s; source := source msg; id := id msg |}
  /\ (forall m' : nat, m' <> m ->
        snd ((lvalue m << make.destination s) st) !! m' = st !! m')
  /\ (forall a b : string,
        fst ((lvalue m << make.source a << make.destination b << make.destination s) st) = m
        /\ snd ((lvalue m << make.source a << make.destination b << make.destination s) st) !! m
           = Some {| destination := s; source := a; id := id msg |}
        /\ forall m' : nat, m' <> m ->
             snd ((lvalue m << make.source a << make.destination b << make.destination s) st) !! m'
             = st !! m').
Proof.
  intros H. unfold shift_left, lvalue.
  rewrite (destination_call_spec st m msg s H). simpl.
  split; [reflexivity|]. split; [apply lookup_insert_eq|].
  split; [intros m' Hm'; apply lookup_insert_ne; congruence|].
  intros a b. split; [reflexivity|]. split.
  - rewrite !lookup_alter_eq, H. reflexivity.
  - intros m' Hm'. rewrite !lookup_alter_ne by congruence. reflexivity.
Qed.

Lemma destination_sets_only_destination_witness :
  fst ((lvalue 0 << make.destination "you") {[0 := Message_new]}) = 0
  /\ snd ((lvalue 0 << make.destination "you") {[0 := Message_new]}) !! 0
     = Some {| destination := "you"; source := source Message_new; id := id Message_new |}
  /\ (forall m' : nat, m' <> 0 ->
        snd ((lvalue 0 << make.destination "you") {[0 := Message_new]}) !! m'
        = ({[0 := Message_new]} : gmap nat Message) !! m')
  /\ (forall a b : string,
        fst ((lvalue 0 << make.source a << make.destination b << make.destination "you")
               {[0 := Message_new]}) = 0
        /\ snd ((lvalue 0 << make.source a << make.destination b << make.destination "you")
                  {[0 := Message_new]}) !! 0
           = Some {| destination := "you"; source := a; id := id Message_new |}
        /\ forall m' : nat, m' <> 0 ->
             snd ((lvalue 0 << make.source a << make.destination b << make.destination "you")
                    {[0 := Message_new]}) !! m'
             = ({[0 := Message_new]} : gmap nat Message) !! m').
Proof.
  apply (destination_sets_only_destination {[0 := Message_new]} 0 Message_new "you").
  apply lookup_singleton_eq.
Defined.

(** *** The other directives, and how directives compose *)

(** X12: [msg << source(s)] and [msg << id(n)] on the message at [m]: each gives
    back the reference [m], sets its own member of that message and leaves
    the two other members and every other object as they were. *)
Theorem source_and_id_set_only_their_member (st : gmap nat Message) (m : nat)
    (msg : Message) (s : string) (n : N) :
  st !! m = Some msg ->
  (fst ((lvalue m << make.source s) st) = m
   /\ snd ((lvalue m << make.source s) st) !! m
      = Some {| destination := destination msg; source := s; id := id msg |}
   /\ forall m' : nat, m' <> m ->
        snd ((lvalue m << make.source s) st) !! m' = st !! m')
  /\ (fst ((lvalue m << make.id n) st) = m
      /\ snd ((lvalue m << make.id n) st) !! m
         = Some {| destination := destination msg; source := source msg; id := n |}
      /\ forall m' : nat, m' <> m ->
           snd ((lvalue m << make.id n) st) !! m' = st !! m').
Proof.
  intros H. unfold shift_left, lvalue.
  rewrite (source_call_spec st m msg s H), (id_call_spec st m msg n H). simpl.
  repeat split; try apply lookup_insert_eq;
    intros m' Hm'; apply lookup_insert_ne; congruence.
Qed.

Lemma source_and_id_set_only_their_member_witness :
  (fst ((lvalue 0 << make.source "me") {[0 := Message_new]}) = 0
   /\ snd ((lvalue 0 << make.source "me") {[0 := Message_new]}) !! 0
      = Some {| destination := destination Message_new; source := "me";
                id := id Message_new |}
   /\ forall m' : nat, m' <> 0 ->
        snd ((lvalue 0 << make.source "me") {[0 := Message_new]}) !! m'
        = ({[0 := Message_new]} : gmap nat Message) !! m')
  /\ (fst ((lvalue 0 << make.id 47) {[0 := Message_new]}) = 0
      /\ snd ((lvalue 0 << make.id 47) {[0 := Message_new]}) !! 0
         = Some {| destination := destination Message_new;
                   source := source Message_new; id := 47 |}
      /\ forall m' : nat, m' <> 0 ->
           snd ((lvalue 0 << make.id 47) {[0 := Message_new]}) !! m'
           = ({[0 := Message_new]} : gmap nat Message) !! m').
Proof.
  apply (source_and_id_set_only_their_member {[0 := Message_new]} 0 Message_new "me" 47).
  apply lookup_singleton_eq.
Defined.

(** *** Directives that hold a reference *)

Lemma read_string_insert (st : store) (r : ref) (msg : Message) (value : string_ref) :
  read_string (<[r := msg]> st) value
  = match value with
    | elsewhere s => Some s
    | destination_of m => if decide (m = r) then Some (destination msg)
                          else read_string st value
    | source_of m => if decide (m = r) then Some (source msg) else read_string st value
    end.
Proof.
  destruct value as [s|m|m]; simpl; [reflexivity| |];
    (destruct (decide (m = r)) as [->|Hne];
     [rewrite lookup_insert_eq|rewrite lookup_insert_ne by congruence]; reflexivity).
Qed.

Lemma read_uint64_insert (st : store) (r : ref) (msg : Message) (value : uint64_ref) :
  read_uint64 (<[r := msg]> st) value
  = match value with
    | elsewhere_id n => Some n
    | id_of m => if decide (m = r) then Some (id msg) else read_uint64 st value
    end.
Proof.
  destruct value as [s|m]; simpl; [reflexivity|].
  destruct (decide (m = r)) as [->|Hne];
    [rewrite lookup_insert_eq|rewrite lookup_insert_ne by congruence]; reflexivity.
Qed.

Lemma alter_present (f : Message -> Message) (st : store) (r : ref) (msg : Message) :
  st !! r = Some msg -> alter f r st = <[r := f msg]> st.
Proof.
  intros H. apply map_eq. intros i. rewrite lookup_alter, lookup_insert.
  destruct (decide (r = i)) as [->|]; [rewrite H|]; reflexivity.
Qed.

Lemma by_reference_destination_spec (st : store) (r : ref) (msg : Message)
    (value : string_ref) (s : string) :
  st !! r = Some msg -> read_string st value = Some s ->
  call (by_reference.make.destination value) r st
  = (r, <[r := {| destination := s; source := source msg; id := id msg |}]> st).
Proof.
  intros H Hv. unfold call, by_reference.destination_call, by_reference.make.destination.
  rewrite Hv, (alter_present _ st r msg H). reflexivity.
Qed.

Lemma by_reference_source_spec (st : store) (r : ref) (msg : Message)
    (value : string_ref) (s : string) :
  st !! r = Some msg -> read_string st value = Some s ->
  call (by_reference.make.source value) r st
  = (r, <[r := {| destination := destination msg; source := s; id := id msg |}]> st).
Proof.
  intros H Hv. unfold call, by_reference.source_call, by_reference.make.source.
  rewrite Hv, (alter_present _ st r msg H). reflexivity.
Qed.

Lemma by_reference_id_spec (st : store) (r : ref) (msg : Message)
    (value : uint64_ref) (n : N) :
  st !! r = Some msg -> read_uint64 st value = Some n ->
  call (by_reference.make.id value) r st
  = (r, <[r := {| destination := destination msg; source := source msg; id := n |}]> st).
Proof.
  intros H Hv. unfold call, by_reference.id_call, by_reference.make.id.
  rewrite Hv, (alter_present _ st r msg H). reflexivity.
Qed.


Lemma read_string_insert_frame (st : store) (r : ref) (msg msg' : Message)
    (value : string_ref) :
  st !! r = Some msg ->
  (value = destination_of r -> destination msg' = destination msg) ->
  (value = source_of r -> source msg' = source msg) ->
  read_string (<[r := msg']> st) value = read_string st value.
Proof.
  intros H Hd Hs. rewrite read_string_insert.
  destruct value as [s|m|m]; [reflexivity| |];
    (destruct (decide (m = r)) as [->|Hne]; [|reflexivity]);
    simpl; rewrite H; simpl; f_equal; auto.
Qed.

Lemma read_uint64_insert_frame (st : store) (r : ref) (msg msg' : Message)
    (value : uint64_ref) :
  st !! r = Some msg ->
  (value = id_of r -> id msg' = id msg) ->
  read_uint64 (<[r := msg']> st) value = read_uint64 st value.
Proof.
  intros H Hi. rewrite read_uint64_insert.
  destruct value as [n|m]; [reflexivity|].
  destruct (decide (m = r)) as [->|Hne]; [|reflexivity].
  simpl. rewrite H. simpl. f_equal. auto.
Qed.

(** One directive after another on the message at [r]. *)
Ltac by_reference_first H Hv :=
  first [ rewrite (by_reference_destination_spec _ _ _ _ _ H Hv)
        | rewrite (by_reference_source_spec _ _ _ _ _ H Hv)
        | rewrite (by_reference_id_spec _ _ _ _ _ H Hv) ].

Ltac by_reference_then H Hv :=
  first [ erewrite by_reference_destination_spec
            by first [ apply lookup_insert_eq
                     | rewrite (read_string_insert_frame _ _ _ _ _ H);
                       [exact Hv | simpl; congruence | simpl; congruence] ]
        | erewrite by_reference_source_spec
            by first [ apply lookup_insert_eq
                     | rewrite (read_string_insert_frame _ _ _ _ _ H);
                       [exact Hv | simpl; congruence | simpl; congruence] ]
        | erewrite by_reference_id_spec
            by first [ apply lookup_insert_eq
                     | rewrite (read_uint64_insert_frame _ _ _ _ _ H);
                       [exact Hv | simpl; congruence] ] ];
  simpl; rewrite insert_insert_eq.

(** A directive made from an object elsewhere does what the directive with
    that object's value does. *)
Lemma by_reference_elsewhere (r : ref) (st : store) (s : string) (n : N) :
  call (by_reference.make.destination (elsewhere s)) r st = call (make.destination s) r st
  /\ call (by_reference.make.source (elsewhere s)) r st = call (make.source s) r st
  /\ call (by_reference.make.id (elsewhere_id n)) r st = call (make.id n) r st.
Proof.
  repeat split.
Qed.

(** [msg << source(msg.destination) << destination(msg.source)] and the two
    directives in the other order, on a message from ["D"] to ["S"]. *)
Example aliased_directives :
  snd ((lvalue 0 << by_reference.make.source (destination_of 0)
                 << by_reference.make.destination (source_of 0))
         {[0 := {| destination := "D"; source := "S"; id := 0 |}]}) !! 0
  = Some {| destination := "D"; source := "D"; id := 0 |}
  /\ snd ((lvalue 0 << by_reference.make.destination (source_of 0)
                    << by_reference.make.source (destination_of 0))
            {[0 := {| destination := "D"; source := "S"; id := 0 |}]}) !! 0
     = Some {| destination := "S"; source := "S"; id := 0 |}.
Proof.
  split; reflexivity.
Qed.

(** X13: Two directives after an expression [e] that gives the message at [r],
    each holding a reference that can be read, to a member of a message or to
    an object elsewhere.  [source] and [destination] can be applied in either
    order unless the argument of one is the member of this message the other
    assigns to; [id] can be applied in either order with both.  Of two
    directives for the same member the second one counts, unless its argument
    is that member of this message: then it changes nothing and the first one
    counts.  With both arguments members of this message the order shows:
    [source(msg.destination)] then [destination(msg.source)] leaves the old
    destination in both members, the other order the old source.  The
    reference given back is [r]. *)
Theorem directives_compose_unless_aliased (e : expr) (st st1 : gmap nat Message)
    (r : nat) (msg : Message) (a b : string_ref) (i j : uint64_ref) :
  e st = (r, st1) ->
  st1 !! r = Some msg ->
  is_Some (read_string st1 a) -> is_Some (read_string st1 b) ->
  is_Some (read_uint64 st1 i) -> is_Some (read_uint64 st1 j) ->
  ((a <> destination_of r -> b <> source_of r ->
    (e << by_reference.make.source a << by_reference.make.destination b) st
    = (e << by_reference.make.destination b << by_reference.make.source a) st)
   /\ (e << by_reference.make.id i << by_reference.make.destination b) st
      = (e << by_reference.make.destination b << by_reference.make.id i) st
   /\ (e << by_reference.make.id i << by_reference.make.source a) st
      = (e << by_reference.make.source a << by_reference.make.id i) st)
  /\ ((b <> destination_of r ->
       (e << by_reference.make.destination a << by_reference.make.destination b) st
       = (e << by_reference.make.destination b) st)
      /\ (b <> source_of r ->
          (e << by_reference.make.source a << by_reference.make.source b) st
          = (e << by_reference.make.source b) st)
      /\ (j <> id_of r ->
          (e << by_reference.make.id i << by_reference.make.id j) st
          = (e << by_reference.make.id j) st))
  /\ ((e << by_reference.make.destination a
         << by_reference.make.destination (destination_of r)) st
      = (e << by_reference.make.destination a) st
      /\ (e << by_reference.make.source a << by_reference.make.source (source_of r)) st
         = (e << by_reference.make.source a) st
      /\ (e << by_reference.make.id i << by_reference.make.id (id_of r)) st
         = (e << by_reference.make.id i) st)
  /\ (snd ((e << by_reference.make.source (destination_of r)
              << by_reference.make.destination (source_of r)) st) !! r
      = Some {| destination := destination msg; source := destination msg; id := id msg |}
      /\ snd ((e << by_reference.make.destination (source_of r)
                 << by_reference.make.source (destination_of r)) st) !! r
         = Some {| destination := source msg; source := source msg; id := id msg |})
  /\ (fst ((e << by_reference.make.destination a) st) = r
      /\ fst ((e << by_reference.make.source a) st) = r
      /\ fst ((e << by_reference.make.id i) st) = r).
Proof.
  intros He H [sa Ha] [sb Hb] [ni Hi] [nj Hj]. unfold shift_left. rewrite He.
  assert (Hd : read_string st1 (destination_of r) = Some (destination msg))
    by (simpl; rewrite H; reflexivity).
  assert (Hs : read_string st1 (source_of r) = Some (source msg))
    by (simpl; rewrite H; reflexivity).
  split; [split; [|split]|split; [split; [|split]|split; [split; [|split]|split; [split|]]]].
  - intros Hna Hnb.
    by_reference_first H Ha. by_reference_first H Hb.
    by_reference_then H Hb. by_reference_then H Ha. reflexivity.
  - by_reference_first H Hi. by_reference_first H Hb.
    by_reference_then H Hb. by_reference_then H Hi. reflexivity.
  - by_reference_first H Hi. by_reference_first H Ha.
    by_reference_then H Ha. by_reference_then H Hi. reflexivity.
  - intros Hnb. by_reference_first H Ha. by_reference_first H Hb.
    by_reference_then H Hb. reflexivity.
  - intros Hnb. by_reference_first H Ha. by_reference_first H Hb.
    by_reference_then H Hb. reflexivity.
  - intros Hnj. by_reference_first H Hi. by_reference_first H Hj.
    by_reference_then H Hj. reflexivity.
  - by_reference_first H Ha.
    erewrite by_reference_destination_spec
      by first [apply lookup_insert_eq | simpl; rewrite lookup_insert_eq; reflexivity].
    simpl. rewrite insert_insert_eq. reflexivity.
  - by_reference_first H Ha.
    erewrite by_reference_source_spec
      by first [apply lookup_insert_eq | simpl; rewrite lookup_insert_eq; reflexivity].
    simpl. rewrite insert_insert_eq. reflexivity.
  - by_reference_first H Hi.
    erewrite by_reference_id_spec
      by first [apply lookup_insert_eq | simpl; rewrite lookup_insert_eq; reflexivity].
    simpl. rewrite insert_insert_eq. reflexivity.
  - by_reference_first H Hd.
    erewrite by_reference_destination_spec
      by first [apply lookup_insert_eq | simpl; rewrite lookup_insert_eq; reflexivity].
    simpl. apply lookup_insert_eq.
  - by_reference_first H Hs.
    erewrite by_reference_source_spec
      by first [apply lookup_insert_eq | simpl; rewrite lookup_insert_eq; reflexivity].
    simpl. apply lookup_insert_eq.
  - by_reference_first H Ha. by_reference_first H Ha. by_reference_first H Hi.
    repeat split.
Qed.

Lemma directives_compose_unless_aliased_witness :
  ((source_of 1 <> destination_of 0 -> destination_of 1 <> source_of 0 ->
    (lvalue 0
       << by_reference.make.source (source_of 1)
       << by_reference.make.destination (destination_of 1))
      main_and_other
    = (lvalue 0
       << by_reference.make.destination (destination_of 1)
       << by_reference.make.source (source_of 1))
      main_and_other)
   /\ (lvalue 0
       << by_reference.make.id (id_of 1)
       << by_reference.make.destination (destination_of 1))
      main_and_other
      = (lvalue 0
       << by_reference.make.destination (destination_of 1)
       << by_reference.make.id (id_of 1))
      main_and_other
   /\ (lvalue 0
       << by_reference.make.id (id_of 1)
       << by_reference.make.source (source_of 1))
      main_and_other
      = (lvalue 0
       << by_reference.make.source (source_of 1)
       << by_reference.make.id (id_of 1))
      main_and_other)
  /\ ((destination_of 1 <> destination_of 0 ->
       (lvalue 0
       << by_reference.make.destination (source_of 1)
       << by_reference.make.destination (destination_of 1))
      main_and_other
       = (lvalue 0
       << by_reference.make.destination (destination_of 1))
      main_and_other)
      /\ (destination_of 1 <> source_of 0 ->
          (lvalue 0
       << by_reference.make.source (source_of 1)
       << by_reference.make.source (destination_of 1))
      main_and_other
          = (lvalue 0
       << by_reference.make.source (destination_of 1))
      main_and_other)
      /\ (elsewhere_id 48 <> id_of 0 ->
          (lvalue 0
       << by_reference.make.id (id_of 1)
       << by_reference.make.id (elsewhere_id 48))
      main_and_other
          = (lvalue 0
       << by_reference.make.id (elsewhere_id 48))
      main_and_other))
  /\ ((lvalue 0
       << by_reference.make.destination (source_of 1)
       << by_reference.make.destination (destination_of 0))
      main_and_other
      = (lvalue 0
       << by_reference.make.destination (source_of 1))
      main_and_other
      /\ (lvalue 0
       << by_reference.make.source (source_of 1)
       << by_reference.make.source (source_of 0))
      main_and_other
         = (lvalue 0
       << by_reference.make.source (source_of 1))
      main_and_other
      /\ (lvalue 0
       << by_reference.make.id (id_of 1)
       << by_reference.make.id (id_of 0))
      main_and_other
         = (lvalue 0
       << by_reference.make.id (id_of 1))
      main_and_other)
  /\ (snd ((lvalue 0
       << by_reference.make.source (destination_of 0)
       << by_reference.make.destination (source_of 0))
      main_and_other) !! 0
      = Some {| destination := destination Message_new; source := destination Message_new;
                id := id Message_new |}
      /\ snd ((lvalue 0
       << by_reference.make.destination (source_of 0)
       << by_reference.make.source (destination_of 0))
      main_and_other) !! 0
         = Some {| destination := source Message_new; source := source Message_new;
                id := id Message_new |})
  /\ (fst ((lvalue 0
       << by_reference.make.destination (source_of 1))
      main_and_other) = 0
      /\ fst ((lvalue 0
       << by_reference.make.source (source_of 1))
      main_and_other) = 0
      /\ fst ((lvalue 0
       << by_reference.make.id (id_of 1))
      main_and_other) = 0).
Proof.
  apply (directives_compose_unless_aliased (lvalue 0)
      main_and_other main_and_other 0
           Message_new (source_of 1) (destination_of 1) (id_of 1) (elsewhere_id 48));
    first [reflexivity | eexists; reflexivity].
Defined.

End DirectivesFacts.

(** ** The directives for two kinds of message *)

Module Directives2Facts.
Import Directives Directives2.
Local Open Scope directive2_scope.

(** X14: [to_defaults] after any expression [e] that gives a [Message]: the message
    has source [A], destination [B] and id [11] whatever it was, so a directive
    applied before [to_defaults] has no effect, and one applied after it
    changes its own member of the defaults. *)
Theorem to_defaults_overrides (e : gmap nat Message -> nat * gmap nat Message)
    (st : gmap nat Message) (a : string) (n : N) :
  ((e << make.destination a << to_defaults) st = (e << to_defaults) st
   /\ (e << make.source a << to_defaults) st = (e << to_defaults) st
   /\ (e << make.id n << to_defaults) st = (e << to_defaults) st)
  /\ (forall msg : Message,
        snd (e st) !! fst (e st) = Some msg ->
        snd ((e << to_defaults) st) !! fst (e st)
        = Some {| destination := "B"; source := "A"; id := 11 |}
        /\ snd ((e << to_defaults << make.destination a << make.id n) st) !! fst (e st)
           = Some {| destination := a; source := "A"; id := n |}).
Proof.
  unfold shift_left. destruct (e st) as [r st']. simpl. split.
  - repeat split; f_equal; apply map_eq; intros i;
      (destruct (decide (r = i)) as [->|Hne];
       [rewrite !lookup_alter_eq; destruct (st' !! i); reflexivity
       |rewrite !lookup_alter_ne by exact Hne; reflexivity]).
  - intros msg H. rewrite !lookup_alter_eq, H. split; reflexivity.
Qed.

(** X15: [msg << id(n)] on the [OtherMessage] at [m]: it gives back the reference
    [m] and sets [otherId] to the decimal numeral of [n], from which [n] can be
    read back, so that different ids give different [otherId]; [destination],
    [source] and every other object are as they were. *)
Theorem id_of_OtherMessage_is_the_numeral (st : gmap nat OtherMessage.t) (m : nat)
    (msg : OtherMessage.t) (n : N) :
  st !! m = Some msg ->
  fst ((lvalue m << make.id n) st) = m
  /\ snd ((lvalue m << make.id n) st) !! m
     = Some {| OtherMessage.destination := OtherMessage.destination msg;
               OtherMessage.source := OtherMessage.source msg;
               OtherMessage.otherId := ostringstream_str n |}
  /\ option_map N.of_uint (NilEmpty.uint_of_string (ostringstream_str n)) = Some n
  /\ (forall n' : N, ostringstream_str n' = ostringstream_str n -> n' = n)
  /\ (forall m' : nat, m' <> m ->
        snd ((lvalue m << make.id n) st) !! m' = st !! m').
Proof.
  intros H. unfold shift_left, lvalue. simpl.
  assert (Hround : forall k : N,
            option_map N.of_uint (NilEmpty.uint_of_string (ostringstream_str k)) = Some k).
  { intros k. unfold ostringstream_str. rewrite NilEmpty.usu. simpl.
    rewrite DecimalN.Unsigned.of_to. reflexivity. }
  split; [reflexivity|]. split; [rewrite lookup_alter_eq, H; reflexivity|].
  split; [apply Hround|]. split.
  - intros n' E. pose proof (Hround n') as Hn'. rewrite E, Hround in Hn'.
    congruence.
  - intros m' Hm'. apply lookup_alter_ne. congruence.
Qed.

(** [otherMsg << id(47ULL)] of [main]. *)
Lemma id_of_OtherMessage_is_the_numeral_witness :
  fst ((lvalue 0 << make.id 47) {[0 := OtherMessage_new]}) = 0
  /\ snd ((lvalue 0 << make.id 47) {[0 := OtherMessage_new]}) !! 0
     = Some {| OtherMessage.destination := OtherMessage.destination OtherMessage_new;
               OtherMessage.source := OtherMessage.source OtherMessage_new;
               OtherMessage.otherId := ostringstream_str 47 |}
  /\ option_map N.of_uint (NilEmpty.uint_of_string (ostringstream_str 47)) = Some 47%N
  /\ (forall n' : N, ostringstream_str n' = ostringstream_str 47 -> n' = 47%N)
  /\ (forall m' : nat, m' <> 0 ->
        snd ((lvalue 0 << make.id 47) {[0 := OtherMessage_new]}) !! m'
        = ({[0 := OtherMessage_new]} : gmap nat OtherMessage.t) !! m').
Proof.
  apply (id_of_OtherMessage_is_the_numeral {[0 := OtherMessage_new]} 0 OtherMessage_new 47).
  apply lookup_singleton_eq.
Defined.

(** [OtherMessage otherMsg; otherMsg << source("me") << destination("you")
    << id(47ULL);] *)
Example main_otherMsg :
  snd ((lvalue 0 << make.source "me" << make.destination "you" << make.id 47)
         {[0 := OtherMessage_new]}) !! 0
  = Some {| OtherMessage.destination := "you"; OtherMessage.source := "me";
            OtherMessage.otherId := "47" |}.
Proof.
  reflexivity.
Qed.

End Directives2Facts.
